(** * Set operations for 1-D arrays based on sorting

    A shallow embedding of [numpy/lib/arraysetops.py] (unique1d,
    intersect1d, intersect1d_nu, setxor1d, setmember1d, union1d,
    setdiff1d) and the properties its specification states about it.

    Arrays are lists; values are integers ([Z]), positions are [nat].
    The module compares values and, in [ediff1d] only, subtracts them:
    that subtraction is numpy's, on 64-bit integers, and wraps around.
    Integer-array ("fancy") indexing raises [IndexError] when an index is
    out of bounds, so it lives in the [option] monad.  The sorts are
    numpy's: their results are fixed by [sort_unique] and
    [argsort_stable_unique], whatever algorithm computes them; the default,
    unstable [argsort] of [unique1d] is a parameter with the contract
    [is_argsort]. *)

From Stdlib Require Import List ZArith Lia Bool Arith Sorted Permutation.
Import ListNotations.

Set Implicit Arguments.

(* ================================================================== *)
(** ** The numpy primitives the module relies on *)
(* ================================================================== *)

Module Np.

(** A tiny error monad for the operations that can raise. *)
Definition bind {A B : Type} (m : option A) (k : A -> option B) : option B :=
  match m with
  | Some x => k x
  | None => None
  end.

(** [np.concatenate((a, b))]. *)
Definition concatenate {A : Type} (a b : list A) : list A := a ++ b.

(** [a.size]. *)
Definition size {A : Type} (a : list A) : nat := length a.

(** Element-wise binary operation on two arrays.  Every use in the module
    is on two arrays of the same length, except [flag * aux2] in
    [setmember1d] on empty input, where a length-1 array is broadcast
    against a length-0 one and the result has length 0: truncating to the
    shorter operand gives exactly that. *)
Fixpoint zip_with {A B C : Type} (f : A -> B -> C)
         (x : list A) (y : list B) : list C :=
  match x, y with
  | a :: x', b :: y' => f a b :: zip_with f x' y'
  | _, _ => []
  end.

(** [x == y] and [x != y] on integer arrays, [x == y] on boolean arrays. *)
Definition eq_arr (x y : list Z) : list bool := zip_with Z.eqb x y.
Definition ne_arr (x y : list Z) : list bool :=
  zip_with (fun a b => negb (Z.eqb a b)) x y.
Definition eq_barr (x y : list bool) : list bool := zip_with Bool.eqb x y.

(** [flag * aux2]: a boolean array times an int8 array. *)
Definition mul_bool_int (x : list bool) (y : list Z) : list Z :=
  zip_with (fun (b : bool) (t : Z) => if b then t else 0%Z) x y.

(** [mask == 0] on a boolean array. *)
Definition eq_zero (mask : list bool) : list bool := map negb mask.

(** [np.zeros(n, int8)] and [np.ones(n, int8)]. *)
Definition zeros (n : nat) : list Z := repeat 0%Z n.
Definition ones (n : nat) : list Z := repeat 1%Z n.

(** [np.where(x)[0]]: the positions of the non-zero entries, ascending. *)
Definition nonzero (x : list Z) : list nat :=
  filter (fun i => negb (Z.eqb (nth i x 0%Z) 0)) (seq 0 (length x)).

(** [a[mask]] for a boolean [mask] that is not longer than [a]: the entries
    of [a] at the positions where [mask] is true. *)
Fixpoint compress {A : Type} (mask : list bool) (a : list A) : list A :=
  match mask, a with
  | m :: mask', x :: a' =>
      if m then x :: compress mask' a' else compress mask' a'
  | _, _ => []
  end.

(** [a[idx]] for an integer array [idx]; [IndexError] is [None]. *)
Fixpoint take {A : Type} (a : list A) (idx : list nat) : option (list A) :=
  match idx with
  | [] => Some []
  | i :: idx' =>
      bind (nth_error a i) (fun x =>
      bind (take a idx') (fun r => Some (x :: r)))
  end.

(** [a[i] = v] for one position. *)
Fixpoint set_item {A : Type} (a : list A) (i : nat) (v : A)
  : option (list A) :=
  match a, i with
  | [], _ => None
  | _ :: a', O => Some (v :: a')
  | x :: a', S i' => bind (set_item a' i' v) (fun r => Some (x :: r))
  end.

(** [a[idx] = vals]: the right-hand side is already evaluated, and the
    assignments happen one after the other in the order of [idx], so a later
    one overwrites an earlier one at the same position. *)
Fixpoint put {A : Type} (a : list A) (idx : list nat) (vals : list A)
  : option (list A) :=
  match idx, vals with
  | [], [] => Some a
  | i :: idx', v :: vals' =>
      bind (set_item a i v) (fun a' => put a' idx' vals')
  | _, _ => None
  end.

(** Sorting.  The result of an ascending sort of integers is determined by
    its input, and so is the permutation a stable sort returns
    ([sorted_perm_unique] and [argsort_stable_unique] below), so a stable
    insertion sort stands for numpy's [sort()] and for
    [argsort(kind='mergesort')]. *)
Section StableSort.
Variable A : Type.
Variable key : A -> Z.

Fixpoint insert_by (x : A) (l : list A) : list A :=
  match l with
  | [] => [x]
  | y :: r => if (key x <=? key y)%Z then x :: y :: r
              else y :: insert_by x r
  end.

Definition sort_by (l : list A) : list A := fold_right insert_by [] l.
End StableSort.

(** [a.sort()]. *)
Definition sort (a : list Z) : list Z := sort_by (fun x => x) a.

(** [a.argsort(kind='mergesort')]. *)
Definition argsort_stable (a : list Z) : list nat :=
  sort_by (fun i => nth i a 0%Z) (seq 0 (length a)).

(** What any [a.argsort()] returns: a permutation of the positions of [a]
    that lists the values of [a] in ascending order.  Ties may come in any
    order. *)
Definition is_argsort (a : list Z) (perm : list nat) : Prop :=
  Permutation perm (seq 0 (length a)) /\
  StronglySorted Z.le (map (fun i => nth i a 0%Z) perm).

(** Arrays whose element type matters to a caller. *)
Inductive ndarray : Type :=
| BoolArray (data : list bool)
| IntpArray (data : list nat)
| IntArray (data : list Z).

Definition ndarray_size (a : ndarray) : nat :=
  match a with
  | BoolArray d => length d
  | IntpArray d => length d
  | IntArray d => length d
  end.

(** The entries of an array read as integers ([False] is 0, [True] is 1). *)
Definition ndarray_values (a : ndarray) : list Z :=
  match a with
  | BoolArray d => map (fun b : bool => if b then 1%Z else 0%Z) d
  | IntpArray d => map Z.of_nat d
  | IntArray d => d
  end.

(** The entries of an array read as positions. *)
Definition ndarray_indices (a : ndarray) : list nat :=
  match a with
  | BoolArray d => map (fun b : bool => if b then 1 else 0) d
  | IntpArray d => d
  | IntArray d => map Z.to_nat d
  end.

End Np.

Import Np.

Notation "x <- m ;; k" := (bind m (fun x => k))
(at level 61, m at next level, right associativity).

(* ================================================================== *)
(** ** The module *)
(* ================================================================== *)

(** [aux[1:] != aux[:-1]] and [aux[1:] == aux[:-1]]. *)
Definition adjacent_ne (aux : list Z) : list bool :=
ne_arr (tl aux) (removelast aux).
Definition adjacent_eq (aux : list Z) : list bool :=
eq_arr (tl aux) (removelast aux).

(** [unique1d(ar1)], i.e. [return_index=False]; [ar] is the flattened input. *)
Definition unique1d (ar : list Z) : list Z :=
if size ar =? 0 then ar
else
  let ar := sort ar in
  let flag := concatenate [true] (adjacent_ne ar) in
  compress flag ar.

Section Unique1dIndex.
(** [ar.argsort()] with the default, unstable kind. *)
Variable argsort : list Z -> list nat.

(** [unique1d(ar1, return_index=True)]: the pair (indices, values). *)
Definition unique1d_index (ar : list Z) : option (ndarray * list Z) :=
  if size ar =? 0 then Some (BoolArray [], ar)
  else
    let perm := argsort ar in
    aux <- take ar perm ;;
    let flag := concatenate [true] (adjacent_ne aux) in
    Some (IntpArray (compress flag perm), compress flag aux).
End Unique1dIndex.

Definition intersect1d (ar1 ar2 : list Z) : list Z :=
let aux := sort (concatenate ar1 ar2) in
compress (adjacent_eq aux) aux.

Definition intersect1d_nu (ar1 ar2 : list Z) : list Z :=
let aux := sort (concatenate (unique1d ar1) (unique1d ar2)) in
compress (adjacent_eq aux) aux.

(** The local [flag] and [flag2] of [setxor1d], as functions of the sorted
  [aux]. *)
Definition setxor1d_flag (aux : list Z) : list bool :=
concatenate [true] (concatenate (adjacent_ne aux) [true]).
Definition setxor1d_flag2 (flag : list bool) : list bool :=
eq_barr (tl flag) (removelast flag).

Definition setxor1d (ar1 ar2 : list Z) : list Z :=
let aux := concatenate ar1 ar2 in
if size aux =? 0 then aux
else
  let aux := sort aux in
  let flag := setxor1d_flag aux in
  let flag2 := setxor1d_flag2 flag in
  compress flag2 aux.

(** The locals of [setmember1d] up to the swap. *)
Definition sm_tt (ar1 ar2 : list Z) : list Z :=
concatenate (zeros (length ar1)) (ones (length ar2)).
Definition sm_perm (ar1 ar2 : list Z) : list nat :=
argsort_stable (concatenate ar1 ar2).
Definition sm_flag (aux : list Z) : list bool :=
concatenate (adjacent_eq aux) [false].
Definition sm_ii (flag : list bool) (aux2 : list Z) : list nat :=
nonzero (mul_bool_int flag aux2).

Definition setmember1d (ar1 ar2 : list Z) : option (list bool) :=
let ar := concatenate ar1 ar2 in
let tt := sm_tt ar1 ar2 in
let perm := sm_perm ar1 ar2 in
aux <- take ar perm ;;
aux2 <- take tt perm ;;
let flag := sm_flag aux in
let ii := sm_ii flag aux2 in
aux' <- take perm (map S ii) ;;
rhs <- take perm ii ;;
perm <- put perm (map S ii) rhs ;;
perm <- put perm ii aux' ;;
let indx := firstn (length ar1) (argsort_stable (map Z.of_nat perm)) in
take flag indx.

Definition union1d (ar1 ar2 : list Z) : list Z :=
unique1d (concatenate ar1 ar2).

Definition setdiff1d (ar1 ar2 : list Z) : option ndarray :=
aux <- setmember1d ar1 ar2 ;;
if size aux =? 0 then Some (BoolArray aux)
else Some (IntArray (compress (eq_zero aux) ar1)).


(** The integers of an array have 64 bits (numpy's default integer type),
    and arithmetic on them wraps around. *)
Definition int64_range (z : Z) : Prop := (- 2 ^ 63 <= z < 2 ^ 63)%Z.

Definition wrap64 (z : Z) : Z := ((z + 2 ^ 63) mod 2 ^ 64 - 2 ^ 63)%Z.

(** [x - y] on integer arrays of the same length. *)
Definition sub_arr (x y : list Z) : list Z :=
  zip_with (fun a b => wrap64 (a - b)) x y.

(** [np.hstack(arrays)] on 1-D arrays; a scalar in the list counts as the
    array of that one entry. *)
Definition hstack (arrays : list (list Z)) : list Z := concat arrays.

(** [ediff1d(ary, to_end, to_begin)], on the flattened [ary]; [None] is the
    default of the two optional numbers. *)
Definition ediff1d (ary : list Z) (to_end to_begin : option Z) : list Z :=
  let ed := sub_arr (tl ary) (removelast ary) in
  let arrays := [ed] in
  let arrays := match to_begin with
                | Some v => [v] :: arrays
                | None => arrays
                end in
  let arrays := match to_end with
                | Some v => arrays ++ [[v]]
                | None => arrays
                end in
  if negb (length arrays =? 1) then hstack arrays else ed.

(* ================================================================== *)
(** ** Notions used to state the properties *)
(* ================================================================== *)

(** The maximal runs of equal values of a sequence, in order, each with its
    length. *)
Fixpoint runs (l : list Z) : list (Z * nat) :=
  match l with
  | [] => []
  | x :: t =>
      match runs t with
      | (y, k) :: rs => if (x =? y)%Z then (y, S k) :: rs
                        else (x, 1) :: (y, k) :: rs
      | [] => [(x, 1)]
      end
  end.

(** [k] copies of each run's value, for a [k] computed from the run's
    length. *)
Definition copies (f : nat -> nat) (rs : list (Z * nat)) : list Z :=
  flat_map (fun r => repeat (fst r) (f (snd r))) rs.

(** The position of the first occurrence of [v] in [p]. *)
Fixpoint index_of (v : nat) (p : list nat) : nat :=
  match p with
  | [] => 0
  | x :: r => if x =? v then 0 else S (index_of v r)
  end.

(** The inverse of a permutation of [0 .. length p - 1]. *)
Definition invert (p : list nat) : list nat :=
  map (fun v => index_of v p) (seq 0 (length p)).

(** Entry [i] of [l] replaced by [v]; [l] itself when [i] is out of range. *)
Fixpoint replace_at {A : Type} (l : list A) (i : nat) (v : A) : list A :=
  match l, i with
  | [], _ => []
  | _ :: r, O => v :: r
  | x :: r, S i' => x :: replace_at r i' v
  end.

(** Entries [i] and [i+1] of [p] exchanged. *)
Definition swap_at (p : list nat) (i : nat) : list nat :=
  replace_at (replace_at p i (nth (S i) p 0)) (S i) (nth i p 0).

(** Position [i] of the sorted sequence is flagged when its value equals the
    next one; the last position never is. *)
Definition flagged (sorted : list Z) (i : nat) : bool :=
  match nth_error sorted i, nth_error sorted (S i) with
  | Some x, Some y => (x =? y)%Z
  | _, _ => false
  end.

(** The flagged positions whose origin tag is [tag]. *)
Definition fixup_positions (tag : Z) (a b : list Z) : list nat :=
  let values := a ++ b in
  let tags := repeat 0%Z (length a) ++ repeat 1%Z (length b) in
  let perm := argsort_stable values in
  let sorted := map (fun i => nth i values 0%Z) perm in
  filter (fun i => flagged sorted i && (nth (nth i perm 0%nat) tags 0 =? tag)%Z)
         (seq 0 (length perm)).

(** The Membership algorithm as the specification words it: stable sort of
    the tagged concatenation, adjacency flags, exchange of the permutation
    entries at [i] and [i+1] for every flagged position [i] whose tag is
    [tag], inversion of the permutation, its first [len(a)] entries, and the
    flags at those positions. *)
Definition Membership_algorithm (tag : Z) (a b : list Z) : list bool :=
  let values := a ++ b in
  let perm := argsort_stable values in
  let sorted := map (fun i => nth i values 0%Z) perm in
  let perm' := fold_left swap_at (fixup_positions tag a b) perm in
  map (flagged sorted) (firstn (length a) (invert perm')).

(** The specification's text has the exchange at tag 0. *)
Definition Membership_spec (a b : list Z) : list bool :=
  Membership_algorithm 0 a b.

(** The positions [setmember1d] exchanges: its local [ii]. *)
Definition setmember1d_ii (ar1 ar2 : list Z) : option (list nat) :=
  let ar := concatenate ar1 ar2 in
  aux <- take ar (sm_perm ar1 ar2) ;;
  aux2 <- take (sm_tt ar1 ar2) (sm_perm ar1 ar2) ;;
  Some (sm_ii (sm_flag aux) aux2).

(** The local [perm] of [setmember1d] after the two index assignments
    [perm[ii+1] = perm[ii]] and [perm[ii] = aux]. *)
Definition setmember1d_perm (ar1 ar2 : list Z) : option (list nat) :=
  let ar := concatenate ar1 ar2 in
  let perm := sm_perm ar1 ar2 in
  aux <- take ar perm ;;
  aux2 <- take (sm_tt ar1 ar2) perm ;;
  let ii := sm_ii (sm_flag aux) aux2 in
  aux' <- take perm (map S ii) ;;
  rhs <- take perm ii ;;
  perm <- put perm (map S ii) rhs ;;
  put perm ii aux'.

(** Whether a position is one of [ii]. *)
Definition in_idx (ii : list nat) (j : nat) : bool := existsb (Nat.eqb j) ii.

(** What the two assignments leave, position by position: the old right
    neighbour at a position of [ii], else the old left neighbour at the
    position after one of [ii], else the old entry. *)
Definition exchanged (perm ii : list nat) : list nat :=
  map (fun j => if in_idx ii j then nth (S j) perm 0
                else if in_idx (map S ii) j then nth (j - 1) perm 0
                else nth j perm 0)
      (seq 0 (length perm)).


(** The flag sequence of SymmetricDifference over the sorted [m], position by
    position: true at both ends, and in between true where [m] changes. *)
Definition xor_f (m : list Z) (i : nat) : bool :=
  if (i =? 0) || (i =? length m) then true
  else negb (Z.eqb (nth i m 0%Z) (nth (i - 1) m 0%Z)).

Definition xor_g (m : list Z) (i : nat) : bool :=
  Bool.eqb (xor_f m i) (xor_f m (S i)).

Definition SymmetricDifference_spec (a b : list Z) : list Z :=
  let m := sort (a ++ b) in
  map (fun i => nth i m 0%Z) (filter (xor_g m) (seq 0 (length m))).


(** Orders on sort keys: by key alone, and by key then position (the order a
    stable sort of positions produces). *)
Definition key_le {A : Type} (key : A -> Z) (x y : A) : Prop :=
  (key x <= key y)%Z.

Definition lexle (key : nat -> Z) (i j : nat) : Prop :=
  (key i < key j)%Z \/ (key i = key j /\ i <= j).


(** What the exchange step of [setmember1d] preserves, entry by entry: an
    entry below [n] (a position of the first array) stays as it is, an entry
    from [n] on is replaced by an entry from [n] on. *)
Definition keeps_low (n x y : nat) : Prop :=
  (x < n /\ y = x) \/ (n <= x /\ n <= y).

(** The three mask selections of the module, written by recursion on the
    array: what [ar[concatenate([True], ar[1:] != ar[:-1])]] keeps after the
    first entry, what [aux[aux[1:] == aux[:-1]]] keeps, and what
    [aux[flag2]] in [setxor1d] keeps when the flag of the first entry is
    [f]. *)
Fixpoint keep_changes (prev : Z) (l : list Z) : list Z :=
  match l with
  | [] => []
  | y :: r => if negb (y =? prev)%Z then y :: keep_changes y r
              else keep_changes y r
  end.

Fixpoint keep_repeats (l : list Z) : list Z :=
  match l with
  | x :: ((y :: _) as t) => if (y =? x)%Z then x :: keep_repeats t
                            else keep_repeats t
  | _ => []
  end.

Fixpoint xor_keep (f : bool) (l : list Z) : list Z :=
  match l with
  | [] => []
  | x :: t =>
      let f' := match t with
                | [] => true
                | y :: _ => negb (y =? x)%Z
                end in
      if Bool.eqb f' f then x :: xor_keep f' t else xor_keep f' t
  end.

(** The array of an optional number, and the sum of an array. *)
Definition pad (o : option Z) : list Z :=
  match o with
  | Some v => [v]
  | None => []
  end.

Definition sum_arr (l : list Z) : Z := fold_right Z.add 0%Z l.

(** Membership of a value in an array, as a test. *)
Definition in_arr (b : list Z) (x : Z) : bool := existsb (Z.eqb x) b.

(* ================================================================== *)
(** ** Sorting facts *)
(* ================================================================== *)

Section SortByFacts.
Variable A : Type.
Variable key : A -> Z.

Lemma insert_by_perm (x : A) (l : list A) :
  Permutation (insert_by key x l) (x :: l).
Proof.
  induction l as [|y r IH]; simpl; [reflexivity|].
  destruct (key x <=? key y)%Z; [reflexivity|].
  rewrite IH. apply perm_swap.
Qed.

Lemma sort_by_perm (l : list A) : Permutation (sort_by key l) l.
Proof.
  induction l as [|x l IH]; simpl; [constructor|].
  rewrite insert_by_perm. now constructor.
Qed.

Lemma insert_by_sorted (x : A) (l : list A) :
  StronglySorted (key_le key) l ->
  StronglySorted (key_le key) (insert_by key x l).
Proof.
  induction 1 as [|y r Hr IH Hy]; simpl.
  - repeat constructor.
  - destruct (Z.leb_spec (key x) (key y)) as [Hle|Hgt].
    + constructor; [now constructor|].
      constructor; [exact Hle|].
      eapply Forall_impl; [|exact Hy].
      unfold key_le; intros; lia.
    + constructor; [exact IH|].
      rewrite (insert_by_perm x r).
      constructor; [unfold key_le; lia | exact Hy].
Qed.

Lemma sort_by_sorted (l : list A) : StronglySorted (key_le key) (sort_by key l).
Proof.
  induction l as [|x l IH]; simpl; [constructor|].
  now apply insert_by_sorted.
Qed.

End SortByFacts.

Section SortedLists.
Variable A : Type.
Variable R : A -> A -> Prop.

Lemma StronglySorted_nth (l : list A) (d : A) :
  StronglySorted R l ->
  forall p q, p < q -> q < length l -> R (nth p l d) (nth q l d).
Proof.
  induction 1 as [|x r Hr IH Hx]; intros p q Hpq Hq; simpl in Hq; [lia|].
  destruct q as [|q]; [lia|]. destruct p as [|p]; simpl.
  - rewrite Forall_forall in Hx. apply Hx, nth_In. lia.
  - apply IH; lia.
Qed.

Hypothesis R_antisym : forall x y, R x y -> R y x -> x = y.

(** A list has at most one sorted arrangement. *)
Lemma sorted_perm_unique (l1 l2 : list A) :
  StronglySorted R l1 -> StronglySorted R l2 -> Permutation l1 l2 -> l1 = l2.
Proof.
  intros H1; revert l2.
  induction H1 as [|x t Ht IH Hx]; intros l2 H2 HP.
  - now apply Permutation_nil in HP.
  - destruct H2 as [|y u Hu Hy].
    + apply Permutation_sym, Permutation_nil in HP. discriminate.
    + assert (x = y) as ->.
      { rewrite Forall_forall in Hx, Hy.
        assert (Hin1 : In x (y :: u))
          by (eapply Permutation_in; [exact HP|now left]).
        assert (Hin2 : In y (x :: t))
          by (eapply Permutation_in;
              [apply Permutation_sym; exact HP|now left]).
        destruct Hin1 as [E|Hin1]; [now symmetry|].
        destruct Hin2 as [E|Hin2]; [exact E|].
        apply R_antisym; auto. }
      f_equal. apply IH; [exact Hu|].
      now apply Permutation_cons_inv in HP.
Qed.

End SortedLists.

Lemma StronglySorted_map (A B : Type) (f : A -> B) (R : B -> B -> Prop)
      (l : list A) :
  StronglySorted (fun x y => R (f x) (f y)) l <-> StronglySorted R (map f l).
Proof.
  induction l as [|x l IH]; simpl; split; intros H; try constructor;
    inversion H; subst.
  - now apply IH.
  - now rewrite Forall_map.
  - now apply IH.
  - now rewrite <- Forall_map.
Qed.

Lemma StronglySorted_impl (A : Type) (R S : A -> A -> Prop) (l : list A) :
  (forall x y, In x l -> In y l -> R x y -> S x y) ->
  StronglySorted R l -> StronglySorted S l.
Proof.
  intros HRS H; induction H as [|x r Hr IH Hx]; constructor.
  - apply IH. intros; apply HRS; simpl; auto.
  - rewrite Forall_forall in *. intros y Hy.
    apply HRS; simpl; auto.
Qed.

Lemma seq_strongly_sorted (len start : nat) : StronglySorted lt (seq start len).
Proof.
  revert start; induction len as [|len IH]; intros start; simpl; constructor.
  - apply IH.
  - rewrite Forall_forall. intros y Hy. apply in_seq in Hy. lia.
Qed.

Lemma Permutation_filter (A : Type) (f : A -> bool) (l l' : list A) :
  Permutation l l' -> Permutation (filter f l) (filter f l').
Proof.
  induction 1 as [|x l l' _ IH|x y l|l l' l'' _ IH1 _ IH2]; simpl.
  - constructor.
  - destruct (f x); [now constructor | exact IH].
  - destruct (f x), (f y); try reflexivity. apply perm_swap.
  - now transitivity (filter f l').
Qed.

Section Stable.
Variable key : nat -> Z.

Lemma lexle_antisym (i j : nat) : lexle key i j -> lexle key j i -> i = j.
Proof. unfold lexle; intros [H|[H H']] [G|[G G']]; lia. Qed.

Lemma lexle_key (i j : nat) : lexle key i j -> (key i <= key j)%Z.
Proof. unfold lexle; intros [H|[H _]]; lia. Qed.

Lemma insert_by_stable (x : nat) (l : list nat) :
  Forall (fun y => x < y) l ->
  StronglySorted (lexle key) l ->
  StronglySorted (lexle key) (insert_by key x l).
Proof.
  intros Hx H; induction H as [|y r Hr IH Hy]; simpl.
  - repeat constructor.
  - inversion Hx as [|? ? Hxy Hxr]; subst.
    destruct (Z.leb_spec (key x) (key y)) as [Hle|Hgt].
    + constructor; [now constructor|].
      constructor; [unfold lexle; lia|].
      rewrite Forall_forall in *. intros z Hz.
      specialize (Hy z Hz). apply lexle_key in Hy.
      specialize (Hxr z Hz). unfold lexle; lia.
    + constructor; [now apply IH|].
      rewrite (insert_by_perm key x r).
      constructor; [unfold lexle; lia | exact Hy].
Qed.

Lemma sort_by_stable (l : list nat) :
  StronglySorted lt l -> StronglySorted (lexle key) (sort_by key l).
Proof.
  induction 1 as [|x r Hr IH Hx]; simpl; [constructor|].
  apply insert_by_stable; [|exact IH].
  now rewrite (sort_by_perm key r).
Qed.

End Stable.

(** *** [sort] and [argsort] *)

Lemma sort_perm (l : list Z) : Permutation (sort l) l.
Proof. apply sort_by_perm. Qed.

Lemma sort_sorted (l : list Z) : StronglySorted Z.le (sort l).
Proof. exact (sort_by_sorted (fun x => x) l). Qed.

(** Whatever algorithm sorts, the result is this one. *)
Lemma sort_unique (l s : list Z) :
  Permutation s l -> StronglySorted Z.le s -> sort l = s.
Proof.
  intros HP HS.
  apply (sorted_perm_unique Z.le_antisymm (sort_sorted l) HS).
  rewrite sort_perm. now symmetry.
Qed.

Lemma sort_length (l : list Z) : length (sort l) = length l.
Proof. apply Permutation_length, sort_perm. Qed.

Lemma sort_In (l : list Z) (x : Z) : In x (sort l) <-> In x l.
Proof.
  split; apply Permutation_in; [|symmetry]; apply sort_perm.
Qed.

Lemma argsort_stable_perm (a : list Z) :
  Permutation (argsort_stable a) (seq 0 (length a)).
Proof. apply sort_by_perm. Qed.

Lemma argsort_stable_lex (a : list Z) :
  StronglySorted (lexle (fun i => nth i a 0%Z)) (argsort_stable a).
Proof. apply sort_by_stable, seq_strongly_sorted. Qed.

Lemma argsort_stable_sorted (a : list Z) :
  StronglySorted Z.le (map (fun i => nth i a 0%Z) (argsort_stable a)).
Proof.
  apply (proj1 (StronglySorted_map (fun i => nth i a 0%Z) Z.le _)).
  eapply StronglySorted_impl; [|apply argsort_stable_lex].
  intros x y _ _. apply lexle_key.
Qed.

Lemma argsort_stable_is_argsort (a : list Z) : is_argsort a (argsort_stable a).
Proof. split; [apply argsort_stable_perm | apply argsort_stable_sorted]. Qed.

(** Any stable sort returns the permutation [argsort_stable] does. *)
Lemma argsort_stable_unique (a : list Z) (p : list nat) :
  Permutation p (seq 0 (length a)) ->
  StronglySorted (lexle (fun i => nth i a 0%Z)) p ->
  p = argsort_stable a.
Proof.
  intros HP HS.
  apply (sorted_perm_unique (@lexle_antisym _) HS (argsort_stable_lex a)).
  rewrite HP. symmetry. apply argsort_stable_perm.
Qed.

Lemma argsort_stable_length (a : list Z) :
  length (argsort_stable a) = length a.
Proof.
  rewrite (Permutation_length (argsort_stable_perm a)). apply length_seq.
Qed.

Lemma argsort_stable_bound (a : list Z) :
  Forall (fun i => i < length a) (argsort_stable a).
Proof.
  rewrite (argsort_stable_perm a), Forall_forall.
  intros i Hi. apply in_seq in Hi. lia.
Qed.

Lemma argsort_stable_NoDup (a : list Z) : NoDup (argsort_stable a).
Proof.
  eapply Permutation_NoDup; [symmetry; apply argsort_stable_perm|].
  apply seq_NoDup.
Qed.

(* ================================================================== *)
(** ** Facts about the array primitives *)
(* ================================================================== *)

Lemma take_Some (A : Type) (a : list A) (d : A) (idx : list nat) :
  Forall (fun i => i < length a) idx ->
  take a idx = Some (map (fun i => nth i a d) idx).
Proof.
  induction 1 as [|i idx Hi _ IH]; simpl; [reflexivity|].
  rewrite (nth_error_nth' a d Hi), IH. reflexivity.
Qed.

Lemma take_inv (A : Type) (a : list A) (d : A) (idx : list nat) (r : list A) :
  take a idx = Some r ->
  Forall (fun i => i < length a) idx /\ r = map (fun i => nth i a d) idx.
Proof.
  revert r; induction idx as [|i idx IH]; simpl; intros r H.
  - inversion H. split; constructor.
  - destruct (nth_error a i) as [x|] eqn:E; simpl in H; [|discriminate].
    destruct (take a idx) as [r'|]; simpl in H; [|discriminate].
    inversion H; subst. destruct (IH r' eq_refl) as [HF ->].
    split.
    + constructor; [|exact HF]. apply nth_error_Some. congruence.
    + f_equal. symmetry. now apply nth_error_nth.
Qed.

Lemma zip_with_length (A B C : Type) (f : A -> B -> C)
      (x : list A) (y : list B) :
  length (zip_with f x y) = Nat.min (length x) (length y).
Proof.
  revert y; induction x as [|a x IH]; intros [|b y]; simpl; auto.
Qed.

Lemma zip_with_nth (A B C : Type) (f : A -> B -> C) (x : list A) (y : list B)
      (dx : A) (dy : B) (dz : C) (i : nat) :
  i < length x -> i < length y ->
  nth i (zip_with f x y) dz = f (nth i x dx) (nth i y dy).
Proof.
  revert y i; induction x as [|a x IH]; intros [|b y] [|i]; simpl;
    intros; try lia; auto.
  apply IH; lia.
Qed.

Lemma nonzero_In (x : list Z) (i : nat) :
  In i (nonzero x) <-> i < length x /\ nth i x 0%Z <> 0%Z.
Proof.
  unfold nonzero. rewrite filter_In, in_seq, negb_true_iff, Z.eqb_neq. lia.
Qed.

Lemma sm_flag_cons2 (x y : Z) (r : list Z) :
  sm_flag (x :: y :: r) = (y =? x)%Z :: sm_flag (y :: r).
Proof. reflexivity. Qed.

Lemma sm_flag_length (aux : list Z) :
  aux <> [] -> length (sm_flag aux) = length aux.
Proof.
  induction aux as [|x [|y r] IH]; intros H; [congruence|reflexivity|].
  rewrite sm_flag_cons2. simpl length at 1.
  rewrite IH; [reflexivity|discriminate].
Qed.

(** The local [flag] of [setmember1d] marks the positions whose value equals
    the next one. *)
Lemma sm_flag_nth (aux : list Z) (i : nat) :
  nth i (sm_flag aux) false = flagged aux i.
Proof.
  revert i; induction aux as [|x [|y r] IH]; intros i.
  - destruct i as [|[|i]]; reflexivity.
  - destruct i as [|[|i]]; reflexivity.
  - rewrite sm_flag_cons2. destruct i as [|i].
    + simpl. apply Z.eqb_sym.
    + change (nth (S i) ((y =? x)%Z :: sm_flag (y :: r)) false)
        with (nth i (sm_flag (y :: r)) false).
      rewrite IH. reflexivity.
Qed.

Lemma flagged_true (aux : list Z) (i : nat) :
  flagged aux i = true <->
  S i < length aux /\ nth i aux 0%Z = nth (S i) aux 0%Z.
Proof.
  unfold flagged.
  destruct (nth_error aux i) as [x|] eqn:Ei.
  - destruct (nth_error aux (S i)) as [y|] eqn:Ej.
    + rewrite (nth_error_nth _ _ 0%Z Ei), (nth_error_nth _ _ 0%Z Ej), Z.eqb_eq.
      assert (S i < length aux) by (apply nth_error_Some; congruence).
      tauto.
    + apply nth_error_None in Ej. split; [discriminate|lia].
  - apply nth_error_None in Ei. split; [discriminate|lia].
Qed.

Lemma sm_ii_In (flag : list bool) (aux2 : list Z) (i : nat) :
  In i (sm_ii flag aux2) <->
  i < length flag /\ i < length aux2 /\
  nth i flag false = true /\ nth i aux2 0%Z <> 0%Z.
Proof.
  unfold sm_ii, mul_bool_int.
  rewrite nonzero_In, zip_with_length. split.
  - intros [Hlt Hnz].
    rewrite (zip_with_nth _ _ _ false 0%Z) in Hnz by lia.
    destruct (nth i flag false); [|congruence].
    repeat split; try lia; auto.
  - intros (H1 & H2 & H3 & H4). split; [lia|].
    rewrite (zip_with_nth _ _ _ false 0%Z) by lia.
    now rewrite H3.
Qed.

Lemma set_item_keeps_low (n : nat) (p a : list nat) (i v : nat) :
  Forall2 (keeps_low n) p a ->
  i < length p -> n <= nth i p 0 -> n <= v ->
  exists a', set_item a i v = Some a' /\ Forall2 (keeps_low n) p a'.
Proof.
  intros H; revert i; induction H as [|x y p a Hxy H IH]; intros i Hi Hn Hv.
  - simpl in Hi; lia.
  - destruct i as [|i]; simpl in *.
    + eexists; split; [reflexivity|]. constructor; [|exact H].
      right; lia.
    + destruct (IH i) as (a' & -> & Ha'); try lia.
      eexists; split; [reflexivity|]. now constructor.
Qed.

Lemma put_keeps_low (n : nat) (p : list nat) (idx vals a : list nat) :
  Forall2 (keeps_low n) p a ->
  Forall (fun i => i < length p /\ n <= nth i p 0) idx ->
  Forall (fun v => n <= v) vals ->
  length idx = length vals ->
  exists a', put a idx vals = Some a' /\ Forall2 (keeps_low n) p a'.
Proof.
  intros Ha Hidx; revert vals a Ha.
  induction Hidx as [|i idx [Hi Hn] _ IH]; intros [|v vals] a Ha Hv Hlen;
    simpl in Hlen; try discriminate.
  - exists a. now split.
  - inversion Hv as [|? ? Hv1 Hv2]; subst.
    destruct (set_item_keeps_low Ha Hi Hn Hv1) as (a1 & E1 & Ha1).
    simpl. rewrite E1. simpl. apply IH; auto.
Qed.

Lemma keeps_low_refl (n : nat) (p : list nat) : Forall2 (keeps_low n) p p.
Proof.
  induction p as [|x p IH]; constructor; [|exact IH].
  unfold keeps_low. lia.
Qed.

Lemma keeps_low_nth (n : nat) (p a : list nat) :
  Forall2 (keeps_low n) p a ->
  length a = length p /\
  forall j, j < length p -> keeps_low n (nth j p 0) (nth j a 0).
Proof.
  induction 1 as [|x y p a Hxy _ [IHl IHn]]; simpl.
  - split; [reflexivity|]. intros; lia.
  - split; [now f_equal|]. intros [|j] Hj; [exact Hxy|]. apply IHn. lia.
Qed.

Lemma keeps_low_filter (n : nat) (p a : list nat) :
  Forall2 (keeps_low n) p a ->
  filter (fun v => v <? n) a = filter (fun v => v <? n) p.
Proof.
  induction 1 as [|x y p a Hxy _ IH]; simpl; [reflexivity|].
  rewrite IH. destruct Hxy as [[Hx ->]|[Hx Hy]].
  - reflexivity.
  - destruct (Nat.ltb_spec x n), (Nat.ltb_spec y n); try lia. reflexivity.
Qed.

Lemma nth_map_lt (A B : Type) (f : A -> B) (l : list A) (d : A) (d' : B)
      (i : nat) :
  i < length l -> nth i (map f l) d' = f (nth i l d).
Proof.
  intros Hi. rewrite (nth_indep _ d' (f d)) by now rewrite length_map.
  apply map_nth.
Qed.

Lemma map_nth_seq (A : Type) (l : list A) (d : A) :
  map (fun j => nth j l d) (seq 0 (length l)) = l.
Proof.
  apply (nth_ext _ _ d d).
  - now rewrite length_map, length_seq.
  - intros i Hi. rewrite length_map, length_seq in Hi.
    rewrite (nth_map_lt _ _ 0) by now rewrite length_seq.
    now rewrite seq_nth.
Qed.

Lemma filter_all (A : Type) (f : A -> bool) (l : list A) :
  (forall x, In x l -> f x = true) -> filter f l = l.
Proof.
  induction l as [|x l IH]; simpl; intros H; [reflexivity|].
  rewrite (H x) by now left. f_equal. apply IH. intros; apply H; now right.
Qed.

Lemma filter_none (A : Type) (f : A -> bool) (l : list A) :
  (forall x, In x l -> f x = false) -> filter f l = [].
Proof.
  induction l as [|x l IH]; simpl; intros H; [reflexivity|].
  rewrite (H x) by now left. apply IH. intros; apply H; now right.
Qed.

Lemma filter_lt_seq (n N : nat) :
  n <= N -> filter (fun v => v <? n) (seq 0 N) = seq 0 n.
Proof.
  intros H. replace N with (n + (N - n)) by lia.
  rewrite seq_app, filter_app, filter_all, filter_none.
  - apply app_nil_r.
  - intros x Hx. apply in_seq in Hx. apply Nat.ltb_ge. lia.
  - intros x Hx. apply in_seq in Hx. apply Nat.ltb_lt. lia.
Qed.

Lemma StronglySorted_filter (A : Type) (R : A -> A -> Prop) (f : A -> bool)
      (l : list A) :
  StronglySorted R l -> StronglySorted R (filter f l).
Proof.
  induction 1 as [|x r Hr IH Hx]; simpl; [constructor|].
  destruct (f x); [|exact IH].
  constructor; [exact IH|].
  rewrite Forall_forall in *. intros y Hy. apply filter_In in Hy.
  apply Hx, Hy.
Qed.

(** In an ascending list the entries below a bound come first. *)
Lemma sorted_filter_lt (n : nat) (t : list nat) :
  StronglySorted le t ->
  filter (fun v => v <? n) t =
  firstn (length (filter (fun v => v <? n) t)) t.
Proof.
  induction 1 as [|x r Hr IH Hx]; simpl; [reflexivity|].
  destruct (Nat.ltb_spec x n) as [Hlt|Hge]; simpl.
  - now rewrite <- IH.
  - rewrite filter_none; [reflexivity|].
    rewrite Forall_forall in Hx. intros y Hy.
    apply Nat.ltb_ge. specialize (Hx y Hy). lia.
Qed.

(** An ascending list that holds each of [0 .. n-1] exactly once, and
    otherwise entries from [n] on, starts with [0, 1, .., n-1]. *)
Lemma sorted_low_prefix (n : nat) (t : list nat) :
  StronglySorted le t ->
  Permutation (filter (fun v => v <? n) t) (seq 0 n) ->
  firstn n t = seq 0 n.
Proof.
  intros HS HP.
  assert (Hlen : length (filter (fun v => v <? n) t) = n)
    by now rewrite (Permutation_length HP), length_seq.
  rewrite <- Hlen at 1. rewrite <- sorted_filter_lt by exact HS.
  apply (sorted_perm_unique Nat.le_antisymm).
  - now apply StronglySorted_filter.
  - eapply StronglySorted_impl; [|apply (seq_strongly_sorted n 0)].
    intros; lia.
  - exact HP.
Qed.

(* ================================================================== *)
(** ** The double permutation of [setmember1d] *)
(* ================================================================== *)

(** Sorting the positions of [p'] by their entries lists the entries in
    ascending order. *)
Lemma argsort_nat_sorted (p' : list nat) :
  StronglySorted le
    (map (fun j => nth j p' 0) (argsort_stable (map Z.of_nat p'))).
Proof.
  apply (proj1 (StronglySorted_map (fun j => nth j p' 0) le _)).
  pose proof (argsort_stable_sorted (map Z.of_nat p')) as HS.
  apply (proj2 (StronglySorted_map _ Z.le _)) in HS.
  eapply StronglySorted_impl; [|exact HS].
  intros x y _ _. cbv beta.
  change 0%Z with (Z.of_nat 0). rewrite !(map_nth Z.of_nat). lia.
Qed.

(** After the exchange step, the entries of the second [argsort] at
    [0 .. n-1] are still the places of [0 .. n-1] in the first
    permutation. *)
Lemma argsort_low_positions (n : nat) (p p' : list nat) :
  Permutation p (seq 0 (length p)) ->
  n <= length p ->
  Forall2 (keeps_low n) p p' ->
  forall i, i < n ->
    nth i (argsort_stable (map Z.of_nat p')) 0 < length p /\
    nth (nth i (argsort_stable (map Z.of_nat p')) 0) p 0 = i.
Proof.
  intros HP Hn HK i Hi.
  destruct (keeps_low_nth HK) as [Hlen Hnth].
  set (q' := argsort_stable (map Z.of_nat p')).
  assert (Hq' : Permutation q' (seq 0 (length p))).
  { unfold q'. rewrite (argsort_stable_perm (map Z.of_nat p')).
    now rewrite length_map, Hlen. }
  assert (Hq'len : length q' = length p)
    by now rewrite (Permutation_length Hq'), length_seq.
  set (t := map (fun j => nth j p' 0) q').
  assert (Ht : Permutation t p').
  { unfold t. rewrite Hq', <- Hlen. now rewrite map_nth_seq. }
  assert (Hpre : firstn n t = seq 0 n).
  { apply sorted_low_prefix; [apply argsort_nat_sorted|].
    rewrite (Permutation_filter _ Ht), (keeps_low_filter HK).
    rewrite (Permutation_filter _ HP). now rewrite filter_lt_seq. }
  assert (Hti : nth i t 0 = i).
  { pose proof (nth_firstn n t i 0) as E.
    rewrite Hpre, seq_nth in E by exact Hi.
    apply Nat.ltb_lt in Hi. rewrite Hi in E. now symmetry. }
  unfold t in Hti. rewrite (nth_map_lt _ _ 0) in Hti by lia.
  assert (Hpos : nth i q' 0 < length p).
  { assert (Hin : In (nth i q' 0) q') by (apply nth_In; lia).
    apply (Permutation_in _ Hq'), in_seq in Hin. lia. }
  split; [exact Hpos|].
  specialize (Hnth _ Hpos). unfold keeps_low in Hnth. lia.
Qed.

Section Setmember.
Variables a b : list Z.

Local Abbreviation ar := (concatenate a b).
Local Abbreviation perm := (sm_perm a b).
Local Abbreviation aux :=
  (map (fun i => nth i (concatenate a b) 0%Z) (sm_perm a b)).
Local Abbreviation aux2 :=
  (map (fun i => nth i (sm_tt a b) 0%Z) (sm_perm a b)).
Local Abbreviation ii := (sm_ii (sm_flag aux) aux2).

Lemma sm_ar_length : length ar = length a + length b.
Proof. apply length_app. Qed.

Lemma sm_tt_length : length (sm_tt a b) = length ar.
Proof.
  unfold sm_tt, concatenate, zeros, ones.
  now rewrite !length_app, !repeat_length.
Qed.

Lemma sm_tt_nth (j : nat) :
  j < length ar ->
  nth j (sm_tt a b) 0%Z = if j <? length a then 0%Z else 1%Z.
Proof.
  rewrite sm_ar_length. intros Hj.
  unfold sm_tt, concatenate, zeros, ones.
  destruct (Nat.ltb_spec j (length a)) as [Hlt|Hge].
  - rewrite app_nth1 by now rewrite repeat_length.
    now apply nth_repeat_lt.
  - rewrite app_nth2; rewrite repeat_length; [|exact Hge].
    apply nth_repeat_lt. lia.
Qed.

Lemma sm_perm_length : length perm = length ar.
Proof. apply argsort_stable_length. Qed.

Lemma sm_perm_nth_bound (i : nat) : i < length ar -> nth i perm 0 < length ar.
Proof.
  intros Hi. pose proof (argsort_stable_bound ar : Forall _ perm) as HB.
  rewrite Forall_forall in HB. apply HB, nth_In.
  now rewrite sm_perm_length.
Qed.

Lemma sm_take_aux : take ar perm = Some aux.
Proof. apply take_Some, argsort_stable_bound. Qed.

Lemma sm_take_aux2 : take (sm_tt a b) perm = Some aux2.
Proof. apply take_Some. rewrite sm_tt_length. apply argsort_stable_bound. Qed.

Lemma sm_aux_nth (i : nat) :
  i < length ar -> nth i aux 0%Z = nth (nth i perm 0) ar 0%Z.
Proof.
  intros Hi. apply (nth_map_lt (fun i => nth i ar 0%Z)).
  now rewrite sm_perm_length.
Qed.

(** Neighbours in the sorted order are in key-then-position order. *)
Lemma sm_perm_lex (i j : nat) :
  i < j -> j < length ar ->
  lexle (fun k => nth k ar 0%Z) (nth i perm 0) (nth j perm 0).
Proof.
  intros Hij Hj. apply StronglySorted_nth; [apply argsort_stable_lex| |];
    [exact Hij | now rewrite sm_perm_length].
Qed.

Lemma sm_perm_inj (i j : nat) :
  i < length ar -> j < length ar -> nth i perm 0 = nth j perm 0 -> i = j.
Proof.
  intros Hi Hj. apply (proj1 (NoDup_nth perm 0) (argsort_stable_NoDup ar));
    now rewrite sm_perm_length.
Qed.

(** A flagged position in the sorted order, in terms of the inputs. *)
Lemma sm_flagged_iff (pos : nat) :
  pos < length ar ->
  (flagged aux pos = true <->
   exists j, nth pos perm 0 < j /\ j < length ar /\
             nth j ar 0%Z = nth (nth pos perm 0) ar 0%Z).
Proof.
  intros Hpos. rewrite flagged_true, length_map, sm_perm_length. split.
  - intros [HS E]. rewrite !sm_aux_nth in E by lia.
    exists (nth (S pos) perm 0).
    pose proof (sm_perm_lex (Nat.lt_succ_diag_r pos) HS) as HL.
    assert (nth pos perm 0 <> nth (S pos) perm 0)
      by (intros C; apply sm_perm_inj in C; lia).
    repeat split.
    + unfold lexle in HL. lia.
    + now apply sm_perm_nth_bound.
    + now symmetry.
  - intros (j & Hij & Hj & E).
    assert (Hin : In j perm).
    { apply (Permutation_in _ (Permutation_sym (argsort_stable_perm ar))).
      apply in_seq. lia. }
    destruct (In_nth _ _ 0 Hin) as (pj & Hpj & Ej).
    rewrite sm_perm_length in Hpj.
    assert (Hlt : pos < pj).
    { destruct (Nat.lt_trichotomy pos pj) as [H|[H|H]]; [exact H| |].
      - subst pj. lia.
      - pose proof (sm_perm_lex H Hpos) as HL.
        rewrite Ej in HL. unfold lexle in HL. lia. }
    split; [lia|]. rewrite !sm_aux_nth by lia.
    pose proof (sm_perm_lex (Nat.lt_succ_diag_r pos)
                  (ltac:(lia) : S pos < length ar)) as H1.
    apply lexle_key in H1.
    destruct (Nat.eq_dec (S pos) pj) as [->|Hne].
    + rewrite Ej. now symmetry.
    + pose proof (sm_perm_lex (ltac:(lia) : S pos < pj) Hpj) as H2.
      apply lexle_key in H2. rewrite Ej in H2. lia.
Qed.

(** The positions exchanged hold entries of the second array, and so do
    their right neighbours. *)
Lemma sm_ii_facts (i : nat) :
  In i ii ->
  S i < length ar /\ length a <= nth i perm 0 /\ length a <= nth (S i) perm 0.
Proof.
  rewrite sm_ii_In, sm_flag_nth, flagged_true, !length_map, sm_perm_length.
  intros (_ & Hi & [HS E] & Htag).
  rewrite (nth_map_lt _ _ 0) in Htag by now rewrite sm_perm_length.
  rewrite sm_tt_nth in Htag by now apply sm_perm_nth_bound.
  destruct (Nat.ltb_spec (nth i perm 0) (length a)) as [|Hge]; [congruence|].
  rewrite !sm_aux_nth in E by lia.
  pose proof (sm_perm_lex (Nat.lt_succ_diag_r i) HS) as HL.
  unfold lexle in HL. repeat split; lia.
Qed.

Lemma bind_Some (A B : Type) (x : A) (k : A -> option B) :
  bind (Some x) k = k x.
Proof. reflexivity. Qed.

(** The gathers and scatters of the exchange step stay in bounds, and leave
    the entries that are positions of the first array where they were. *)
Lemma sm_exchange :
  exists p', Forall2 (keeps_low (length a)) perm p' /\
    setmember1d a b =
    take (sm_flag aux)
         (firstn (length a) (argsort_stable (map Z.of_nat p'))).
Proof.
  assert (HS : Forall (fun i => i < length perm /\ length a <= nth i perm 0)
                      (map S ii)).
  { rewrite Forall_map, Forall_forall. intros i Hi.
    apply sm_ii_facts in Hi. rewrite sm_perm_length. lia. }
  assert (HI : Forall (fun i => i < length perm /\ length a <= nth i perm 0)
                      ii).
  { rewrite Forall_forall. intros i Hi.
    apply sm_ii_facts in Hi. rewrite sm_perm_length. lia. }
  destruct (@put_keeps_low (length a) perm (map S ii)
              (map (fun i => nth i perm 0) ii) perm)
    as (p1 & E1 & K1).
  { apply keeps_low_refl. }
  { exact HS. }
  { rewrite Forall_map. eapply Forall_impl; [|exact HI]. cbv beta; tauto. }
  { now rewrite !length_map. }
  destruct (@put_keeps_low (length a) perm ii
              (map (fun i => nth i perm 0) (map S ii)) p1)
    as (p2 & E2 & K2).
  { exact K1. }
  { exact HI. }
  { rewrite Forall_map. eapply Forall_impl; [|exact HS]. cbv beta; tauto. }
  { now rewrite !length_map. }
  exists p2. split; [exact K2|].
  unfold setmember1d. cbv zeta.
  rewrite sm_take_aux, bind_Some, sm_take_aux2, bind_Some.
  rewrite (take_Some perm 0 (idx := map S ii)), bind_Some
    by (eapply Forall_impl; [|exact HS]; cbv beta; tauto).
  rewrite (take_Some perm 0 (idx := ii)), bind_Some
    by (eapply Forall_impl; [|exact HI]; cbv beta; tauto).
  rewrite E1, bind_Some, E2, bind_Some. reflexivity.
Qed.

(** What [setmember1d] computes, for all inputs: the mask has the length of
    the first array, and entry [i] tells whether the value at [i] occurs
    again later in the concatenation of both arrays. *)
Lemma setmember1d_later :
  exists mask, setmember1d a b = Some mask /\ length mask = length a /\
    forall i, i < length a ->
      (nth i mask false = true <->
       exists j, i < j /\ j < length ar /\ nth j ar 0%Z = nth i ar 0%Z).
Proof.
  destruct sm_exchange as (p' & HK & ->).
  set (q' := argsort_stable (map Z.of_nat p')).
  assert (HPp : Permutation perm (seq 0 (length perm)))
    by (rewrite sm_perm_length; apply argsort_stable_perm).
  assert (Hn : length a <= length ar) by (rewrite sm_ar_length; lia).
  pose proof (@argsort_low_positions (length a) perm p' HPp
                ltac:(now rewrite sm_perm_length) HK) as HP.
  fold q' in HP. rewrite sm_perm_length in HP.
  assert (Hq'len : length q' = length ar).
  { unfold q'. rewrite argsort_stable_length, length_map.
    rewrite (proj1 (keeps_low_nth HK)). apply sm_perm_length. }
  assert (Hflag : 0 < length ar -> length (sm_flag aux) = length ar).
  { intros H. rewrite sm_flag_length.
    - now rewrite length_map, sm_perm_length.
    - intros C. apply (f_equal (@length Z)) in C.
      rewrite length_map, sm_perm_length in C. simpl in C. lia. }
  assert (Hlen : length (firstn (length a) q') = length a)
    by (rewrite length_firstn; lia).
  assert (Hidx : forall i, i < length a ->
            nth i (firstn (length a) q') 0 = nth i q' 0).
  { intros i Hi. rewrite nth_firstn. apply Nat.ltb_lt in Hi. now rewrite Hi. }
  rewrite (take_Some _ false); cycle 1.
  { apply Forall_forall. intros k Hk.
    destruct (In_nth _ _ 0 Hk) as (i & Hi & <-). rewrite Hlen in Hi.
    rewrite Hidx by exact Hi. rewrite Hflag by lia. now apply HP. }
  eexists; split; [reflexivity|]. rewrite length_map. split; [exact Hlen|].
  intros i Hi.
  rewrite (nth_map_lt _ _ 0) by now rewrite Hlen.
  rewrite Hidx, sm_flag_nth by exact Hi.
  destruct (HP i Hi) as [Hpos Epos].
  rewrite (sm_flagged_iff Hpos). now rewrite Epos.
Qed.

End Setmember.

Lemma bool_list_ext (l1 l2 : list bool) :
  length l1 = length l2 ->
  (forall i, i < length l1 ->
     (nth i l1 false = true <-> nth i l2 false = true)) ->
  l1 = l2.
Proof.
  intros Hlen H. apply (nth_ext _ _ false false Hlen). intros i Hi.
  specialize (H i Hi).
  destruct (nth i l1 false), (nth i l2 false); intuition congruence.
Qed.

(** The same, in terms of the two inputs: entry [i] of the mask is true when
    the value at [i] is in the second array or occurs again later in the
    first. *)
Lemma setmember1d_mask (a b : list Z) :
  exists mask, setmember1d a b = Some mask /\ length mask = length a /\
    forall i, i < length a ->
      (nth i mask false = true <->
       In (nth i a 0%Z) b \/
       exists j, i < j /\ j < length a /\ nth j a 0%Z = nth i a 0%Z).
Proof.
  destruct (setmember1d_later a b) as (mask & E & Hlen & H).
  exists mask. split; [exact E|]. split; [exact Hlen|].
  intros i H0. split.
  - intros Hm. apply (H i H0) in Hm. destruct Hm as (j & Hij & Hj & Ej).
    unfold concatenate in *. rewrite length_app in Hj.
    rewrite (app_nth1 a b 0%Z H0) in Ej.
    destruct (Nat.lt_ge_cases j (length a)) as [Hlt|Hge].
    + right. exists j. rewrite app_nth1 in Ej by exact Hlt. auto.
    + left. rewrite app_nth2 in Ej by exact Hge. rewrite <- Ej.
      apply nth_In. lia.
  - intros Hm. apply (H i H0). unfold concatenate.
    rewrite length_app, (app_nth1 a b 0%Z H0).
    destruct Hm as [Hin|(j & Hij & Hj & Ej)].
    + destruct (In_nth _ _ 0%Z Hin) as (k & Hk & Ek).
      exists (length a + k). repeat split; try lia.
      rewrite app_nth2 by lia.
      now replace (length a + k - length a) with k by lia.
    + exists j. repeat split; try lia. now rewrite app_nth1.
Qed.

(** C1, as stated, fails: with a duplicate in the first array and nothing in
    the second, the mask is true at the first occurrence. *)
Lemma setmember1d_duplicates_counterexample :
  setmember1d [1; 1]%Z [] = Some [true; false] /\
  nth 0 [true; false] false = true /\
  ~ In (nth 0 [1; 1]%Z 0%Z) [].
Proof. repeat split. intros []. Qed.

(** C1 (amended): for all arrays [a] and [b], [setmember1d] returns a mask of
    the length of [a]; an entry is true whenever the value at that position
    is in [b]; at every position whose value does not occur again later in
    [a], the entry is true exactly when the value is in [b]; and the mask
    depends on [b] only through the set of its values. *)
Theorem setmember1d_mask_general (a b : list Z) :
  exists mask, setmember1d a b = Some mask /\ length mask = length a /\
    (forall i, i < length a -> In (nth i a 0%Z) b -> nth i mask false = true) /\
    (forall i, i < length a ->
       (forall j, i < j -> j < length a -> nth j a 0%Z <> nth i a 0%Z) ->
       (nth i mask false = true <-> In (nth i a 0%Z) b)) /\
    (forall b', (forall x, In x b <-> In x b') ->
       setmember1d a b' = Some mask).
Proof.
  destruct (setmember1d_mask a b) as (mask & E & Hlen & H).
  exists mask. split; [exact E|]. split; [exact Hlen|]. split; [|split].
  - intros i Hi Hin. apply (H i Hi). now left.
  - intros i Hi Hlast. rewrite (H i Hi). split; [|now left].
    intros [Hin|(j & Hij & Hj & Ej)]; [exact Hin|].
    now apply Hlast in Ej.
  - intros b' Hb'.
    destruct (setmember1d_mask a b') as (mask' & E' & Hlen' & H').
    rewrite E'. f_equal. apply bool_list_ext; [congruence|].
    intros i Hi. rewrite Hlen' in Hi.
    rewrite (H i Hi), (H' i Hi), (Hb' (nth i a 0%Z)). reflexivity.
Qed.

(** On a duplicate-free first array the mask is the membership test. *)
Lemma setmember1d_nodup_mask (a b : list Z) :
  NoDup a ->
  exists mask, setmember1d a b = Some mask /\ length mask = length a /\
    forall i, i < length a ->
      (nth i mask false = true <-> In (nth i a 0%Z) b).
Proof.
  intros Ha.
  destruct (setmember1d_mask a b) as (mask & E & Hlen & H).
  exists mask. split; [exact E|]. split; [exact Hlen|].
  intros i Hi. rewrite (H i Hi). split; [|now left].
  intros [Hin|(j & Hij & Hj & Ej)]; [exact Hin|].
  apply (proj1 (NoDup_nth a 0%Z) Ha) in Ej; lia.
Qed.

(** C3: for a duplicate-free [a] and any [b], [setmember1d] returns a mask of
    the length of [a] whose entry [i] is true exactly when [a[i]] occurs in
    [b]; in particular the mask against the empty array is all false. *)
Theorem setmember1d_unique (a b : list Z) :
  NoDup a ->
  (exists mask, setmember1d a b = Some mask /\ length mask = length a /\
     forall i, i < length a ->
       (nth i mask false = true <-> In (nth i a 0%Z) b)) /\
  setmember1d a [] = Some (repeat false (length a)).
Proof.
  intros Ha. split; [now apply setmember1d_nodup_mask|].
  destruct (setmember1d_nodup_mask [] Ha) as (mask & E & Hlen & H).
  rewrite E. f_equal. apply (nth_ext _ _ false false).
  - now rewrite repeat_length.
  - intros i Hi. rewrite Hlen in Hi. rewrite nth_repeat.
    destruct (nth i mask false) eqn:Em; [|reflexivity].
    now apply (H i Hi) in Em.
Qed.

Lemma setmember1d_unique_witness :
  NoDup [1; 2; 3; 4]%Z /\
  ((exists mask, setmember1d [1; 2; 3; 4]%Z [2; 4]%Z = Some mask /\
      length mask = 4 /\
      forall i, i < 4 ->
        (nth i mask false = true <-> In (nth i [1; 2; 3; 4]%Z 0%Z) [2; 4]%Z)) /\
   setmember1d [1; 2; 3; 4]%Z [] = Some (repeat false 4)).
Proof.
  assert (H : NoDup [1; 2; 3; 4]%Z).
  { repeat (constructor; [simpl; intuition discriminate|]). constructor. }
  split; [exact H|]. exact (setmember1d_unique [2; 4]%Z H).
Defined.

(* ================================================================== *)
(** ** [setmember1d] against the algorithm of the specification *)
(* ================================================================== *)

Lemma set_item_replace_at (A : Type) (l : list A) (i : nat) (v : A) :
  i < length l -> set_item l i v = Some (replace_at l i v).
Proof.
  revert i; induction l as [|x l IH]; intros [|i] Hi; simpl in *;
    try lia; [reflexivity|].
  rewrite IH by lia. reflexivity.
Qed.

Lemma replace_at_keeps_low (n : nat) (p q : list nat) (i v : nat) :
  Forall2 (keeps_low n) p q ->
  i < length p -> n <= nth i p 0 -> n <= v ->
  Forall2 (keeps_low n) p (replace_at q i v).
Proof.
  intros HK Hi Hn Hv.
  destruct (set_item_keeps_low HK Hi Hn Hv) as (q' & E & HK').
  rewrite set_item_replace_at in E
    by (rewrite (proj1 (keeps_low_nth HK)); exact Hi).
  now inversion E; subst.
Qed.

Lemma swap_at_keeps_low (n : nat) (p q : list nat) (i : nat) :
  Forall2 (keeps_low n) p q ->
  S i < length p -> n <= nth i p 0 -> n <= nth (S i) p 0 ->
  Forall2 (keeps_low n) p (swap_at q i).
Proof.
  intros HK Hi Hn HSn. destruct (keeps_low_nth HK) as [_ Hnth].
  pose proof (Hnth i ltac:(lia)) as K1. pose proof (Hnth (S i) Hi) as K2.
  unfold keeps_low in K1, K2. unfold swap_at.
  apply replace_at_keeps_low; [apply replace_at_keeps_low| | |]; auto; lia.
Qed.

Lemma fold_swap_at_keeps_low (n : nat) (p : list nat) (l : list nat) :
  Forall (fun i => S i < length p /\ n <= nth i p 0 /\ n <= nth (S i) p 0) l ->
  forall q, Forall2 (keeps_low n) p q ->
            Forall2 (keeps_low n) p (fold_left swap_at l q).
Proof.
  induction 1 as [|i l (H1 & H2 & H3) _ IH]; intros q HK; simpl; [exact HK|].
  apply IH. now apply swap_at_keeps_low.
Qed.

Lemma index_of_In (v : nat) (p : list nat) :
  In v p -> index_of v p < length p /\ nth (index_of v p) p 0 = v.
Proof.
  induction p as [|x p IH]; simpl; [intros []|]. intros Hin.
  destruct (Nat.eqb_spec x v) as [->|Hne]; [split; [lia|reflexivity]|].
  destruct Hin as [->|Hin]; [congruence|].
  destruct (IH Hin). split; [lia|assumption].
Qed.

Lemma invert_nth (p : list nat) (i : nat) :
  i < length p -> nth i (invert p) 0 = index_of i p.
Proof.
  intros Hi. unfold invert.
  rewrite (nth_map_lt _ _ 0) by now rewrite length_seq.
  now rewrite seq_nth.
Qed.

Section SetmemberSpec.
Variables a b : list Z.

Local Abbreviation ar := (concatenate a b).
Local Abbreviation perm := (sm_perm a b).
Local Abbreviation aux :=
  (map (fun i => nth i (concatenate a b) 0%Z) (sm_perm a b)).
Local Abbreviation aux2 :=
  (map (fun i => nth i (sm_tt a b) 0%Z) (sm_perm a b)).

(** The exchanged positions are the flagged ones with tag 1. *)
Lemma sm_ii_fixup_positions :
  sm_ii (sm_flag aux) aux2 = fixup_positions 1 a b.
Proof.
  unfold sm_ii, nonzero, fixup_positions, mul_bool_int. cbv zeta.
  change (argsort_stable (a ++ b)) with perm.
  assert (Hlen : length (zip_with
                           (fun (b0 : bool) (t : Z) => if b0 then t else 0%Z)
                           (sm_flag aux) aux2) = length perm).
  { rewrite zip_with_length, length_map.
    destruct (sm_perm a b) as [|x r] eqn:E; [reflexivity|].
    rewrite sm_flag_length by discriminate. rewrite length_map. lia. }
  rewrite Hlen. apply filter_ext_in. intros i Hi. apply in_seq in Hi.
  assert (Hi' : i < length ar) by (rewrite <- (sm_perm_length a b); lia).
  assert (Hflag : i < length (sm_flag aux)).
  { rewrite <- Hlen, zip_with_length in Hi. lia. }
  rewrite (zip_with_nth _ _ _ false 0%Z) by (rewrite ?length_map; lia).
  rewrite sm_flag_nth.
  rewrite (nth_map_lt _ _ 0) by lia.
  change (repeat 0%Z (length a) ++ repeat 1%Z (length b)) with (sm_tt a b).
  change (map (fun i0 => nth i0 (a ++ b) 0%Z) perm) with aux.
  rewrite sm_tt_nth by now apply sm_perm_nth_bound.
  destruct (flagged aux i), (nth i perm 0 <? length a); reflexivity.
Qed.

Lemma fixup_positions_facts (i : nat) :
  In i (fixup_positions 1 a b) ->
  S i < length perm /\ length a <= nth i perm 0 /\
  length a <= nth (S i) perm 0.
Proof.
  rewrite <- sm_ii_fixup_positions. intros Hi.
  apply sm_ii_facts in Hi. now rewrite sm_perm_length.
Qed.

(** The algorithm with the exchange at tag 1 finds, for each position of the
    first array, its place in the sorted order. *)
Lemma Membership_algorithm_place (i : nat) :
  i < length a ->
  let perm' := fold_left swap_at (fixup_positions 1 a b) perm in
  index_of i perm' < length ar /\ nth (index_of i perm') perm 0 = i.
Proof.
  intros Hi perm'.
  assert (HK : Forall2 (keeps_low (length a)) perm perm').
  { apply fold_swap_at_keeps_low; [|apply keeps_low_refl].
    apply Forall_forall. intros k Hk. now apply fixup_positions_facts. }
  destruct (keeps_low_nth HK) as [Hlen Hnth].
  assert (Hi' : i < length ar) by (rewrite sm_ar_length; lia).
  assert (Hin : In i perm').
  { assert (Hp : In i perm).
    { apply (Permutation_in _ (Permutation_sym (argsort_stable_perm ar))).
      apply in_seq. lia. }
    destruct (In_nth _ _ 0 Hp) as (k & Hk & Ek).
    pose proof (Hnth k Hk) as K. unfold keeps_low in K.
    replace i with (nth k perm' 0) by lia. apply nth_In. lia. }
  destruct (index_of_In _ _ Hin) as [Hlt E].
  rewrite Hlen, sm_perm_length in Hlt. split; [exact Hlt|].
  pose proof (Hnth (index_of i perm') ltac:(now rewrite sm_perm_length)) as K.
  unfold keeps_low in K. lia.
Qed.

End SetmemberSpec.

Lemma replace_at_length (A : Type) (l : list A) (i : nat) (v : A) :
  length (replace_at l i v) = length l.
Proof.
  revert i; induction l as [|x l IH]; intros [|i]; simpl; auto.
Qed.

Lemma fold_swap_at_length (l q : list nat) :
  length (fold_left swap_at l q) = length q.
Proof.
  revert q; induction l as [|i l IH]; intros q; simpl; [reflexivity|].
  rewrite IH. unfold swap_at. now rewrite !replace_at_length.
Qed.

(** C8, as stated, fails: on [[1]] against [[1]] the code exchanges nothing
    where the specification's text exchanges at position 0, and the two
    algorithms return different masks. *)
Lemma setmember1d_tag0_counterexample :
  setmember1d_ii [1]%Z [1]%Z = Some [] /\
  fixup_positions 0 [1]%Z [1]%Z = [0] /\
  setmember1d [1]%Z [1]%Z = Some [true] /\
  Membership_spec [1]%Z [1]%Z = [false].
Proof. repeat split. Qed.

Lemma replace_at_nth (A : Type) (l : list A) (i j : nat) (v d : A) :
  i < length l ->
  nth j (replace_at l i v) d = if j =? i then v else nth j l d.
Proof.
  revert i j; induction l as [|x l IH]; intros [|i] [|j] Hi; simpl in *;
    try lia; try reflexivity.
  apply IH. lia.
Qed.

Lemma in_idx_In (ii : list nat) (j : nat) : in_idx ii j = true <-> In j ii.
Proof.
  unfold in_idx. rewrite existsb_exists. split.
  - intros (x & Hx & E). apply Nat.eqb_eq in E. now subst.
  - intros H. exists j. split; [exact H|apply Nat.eqb_refl].
Qed.

Lemma in_idx_false (ii : list nat) (j : nat) :
  ~ In j ii -> in_idx ii j = false.
Proof.
  intros H. destruct (in_idx ii j) eqn:E; [|reflexivity].
  now apply in_idx_In in E.
Qed.

(** An index assignment whose values are a function of the position
    written. *)
Lemma put_map_nth (A : Type) (d : A) (f : nat -> A) (idx : list nat) :
  forall l, Forall (fun i => i < length l) idx ->
  exists l', put l idx (map f idx) = Some l' /\ length l' = length l /\
    forall j, nth j l' d = if in_idx idx j then f j else nth j l d.
Proof.
  induction idx as [|i idx IH]; intros l Hidx.
  - exists l. repeat split.
  - inversion Hidx as [|? ? Hi Hrest]; subst.
    cbn [map put]. rewrite (set_item_replace_at _ (f i) Hi), bind_Some.
    destruct (IH (replace_at l i (f i))) as (l' & E & Hlen & Hnth).
    { now rewrite replace_at_length. }
    exists l'. split; [exact E|]. rewrite replace_at_length in Hlen.
    split; [exact Hlen|]. intros j. rewrite Hnth, replace_at_nth by exact Hi.
    unfold in_idx. cbn [existsb].
    destruct (Nat.eqb_spec j i) as [->|Hne]; cbn [orb];
      destruct (existsb (Nat.eqb _) idx); reflexivity.
Qed.

Lemma exchanged_length (perm ii : list nat) :
  length (exchanged perm ii) = length perm.
Proof. unfold exchanged. now rewrite length_map, length_seq. Qed.

Lemma exchanged_nth (perm ii : list nat) (j : nat) :
  j < length perm ->
  nth j (exchanged perm ii) 0 =
  if in_idx ii j then nth (S j) perm 0
  else if in_idx (map S ii) j then nth (j - 1) perm 0
  else nth j perm 0.
Proof.
  intros Hj. unfold exchanged.
  rewrite (nth_map_lt _ _ 0) by now rewrite length_seq.
  now rewrite seq_nth.
Qed.

(** The two scatters of the exchange step, in general. *)
Lemma put_put_exchanged (perm ii : list nat) :
  Forall (fun i => S i < length perm) ii ->
  exists p1,
    put perm (map S ii) (map (fun i => nth i perm 0) ii) = Some p1 /\
    put p1 ii (map (fun i => nth i perm 0) (map S ii)) =
    Some (exchanged perm ii).
Proof.
  intros Hii.
  assert (E1 : map (fun i => nth i perm 0) ii =
               map (fun s => nth (s - 1) perm 0) (map S ii)).
  { rewrite map_map. apply map_ext. intros i. cbn [Nat.sub].
    now rewrite Nat.sub_0_r. }
  destruct (@put_map_nth nat 0 (fun s => nth (s - 1) perm 0) (map S ii) perm)
    as (p1 & P1 & L1 & N1).
  { rewrite Forall_map. exact Hii. }
  destruct (@put_map_nth nat 0 (fun i => nth (S i) perm 0) ii p1)
    as (p2 & P2 & L2 & N2).
  { rewrite L1. eapply Forall_impl; [|exact Hii]. cbv beta; intros; lia. }
  exists p1. rewrite E1. split; [exact P1|].
  rewrite map_map, P2. f_equal.
  apply (nth_ext _ _ 0 0).
  - now rewrite exchanged_length, L2, L1.
  - intros j Hj. rewrite L2, L1 in Hj.
    now rewrite exchanged_nth, N2, N1 by exact Hj.
Qed.

Section SetmemberExchange.
Variables a b : list Z.

Local Abbreviation perm := (sm_perm a b).
Local Abbreviation aux :=
  (map (fun i => nth i (concatenate a b) 0%Z) (sm_perm a b)).
Local Abbreviation aux2 :=
  (map (fun i => nth i (sm_tt a b) 0%Z) (sm_perm a b)).
Local Abbreviation ii := (fixup_positions 1 a b).

Lemma fixup_positions_bound : Forall (fun i => S i < length perm) ii.
Proof.
  apply Forall_forall. intros i Hi. now apply fixup_positions_facts in Hi.
Qed.

(** The local [perm] after the exchange step. *)
Lemma setmember1d_perm_exchanged :
  setmember1d_perm a b = Some (exchanged perm ii).
Proof.
  destruct (@put_put_exchanged perm ii fixup_positions_bound)
    as (p1 & E1 & E2).
  unfold setmember1d_perm. cbv zeta.
  rewrite sm_take_aux, bind_Some, sm_take_aux2, bind_Some.
  rewrite sm_ii_fixup_positions.
  rewrite (take_Some perm 0 (idx := map S ii)), bind_Some
    by (rewrite Forall_map; apply fixup_positions_bound).
  rewrite (take_Some perm 0 (idx := ii)), bind_Some
    by (eapply Forall_impl; [|apply fixup_positions_bound];
        cbv beta; intros; lia).
  now rewrite E1, bind_Some.
Qed.

(** [setmember1d] goes on from that [perm]. *)
Lemma setmember1d_from_exchanged :
  setmember1d a b =
  take (sm_flag aux)
       (firstn (length a)
               (argsort_stable (map Z.of_nat (exchanged perm ii)))).
Proof.
  destruct (@put_put_exchanged perm ii fixup_positions_bound)
    as (p1 & E1 & E2).
  unfold setmember1d. cbv zeta.
  rewrite sm_take_aux, bind_Some, sm_take_aux2, bind_Some.
  rewrite sm_ii_fixup_positions.
  rewrite (take_Some perm 0 (idx := map S ii)), bind_Some
    by (rewrite Forall_map; apply fixup_positions_bound).
  rewrite (take_Some perm 0 (idx := ii)), bind_Some
    by (eapply Forall_impl; [|apply fixup_positions_bound];
        cbv beta; intros; lia).
  now rewrite E1, bind_Some, E2, bind_Some.
Qed.

Lemma exchanged_at (i : nat) :
  In i ii ->
  nth i (exchanged perm ii) 0 = nth (S i) perm 0 /\
  (~ In (S i) ii -> nth (S i) (exchanged perm ii) 0 = nth i perm 0).
Proof.
  intros Hi. pose proof (fixup_positions_facts _ _ _ Hi) as (HS & _ & _).
  split.
  - rewrite exchanged_nth by lia.
    now rewrite (proj2 (in_idx_In ii i) Hi).
  - intros Hn. rewrite exchanged_nth by exact HS.
    rewrite (in_idx_false _ _ Hn).
    rewrite (proj2 (in_idx_In (map S ii) (S i)) (in_map S _ _ Hi)).
    cbn [Nat.sub]. now rewrite Nat.sub_0_r.
Qed.

Lemma exchanged_keeps_first (j : nat) :
  j < length perm -> nth j perm 0 < length a ->
  nth j (exchanged perm ii) 0 = nth j perm 0.
Proof.
  intros Hj Hlow. rewrite exchanged_nth by exact Hj.
  rewrite in_idx_false, in_idx_false; [reflexivity| |].
  - intros Hin. apply in_map_iff in Hin. destruct Hin as (i & <- & Hi).
    apply fixup_positions_facts in Hi. lia.
  - intros Hin. apply fixup_positions_facts in Hin. lia.
Qed.

Lemma setmember1d_Membership_algorithm :
  setmember1d a b = Some (Membership_algorithm 1 a b).
Proof.
  destruct (setmember1d_later a b) as (mask & E & Hlen & H).
  rewrite E. f_equal.
  pose proof (Membership_algorithm_place a b) as HP. cbv zeta in HP.
  unfold Membership_algorithm. cbv zeta.
  change (argsort_stable (a ++ b)) with (sm_perm a b) in *.
  set (perm' := fold_left swap_at (fixup_positions 1 a b) (sm_perm a b)) in *.
  assert (Hn : length a <= length (invert perm')).
  { unfold invert, perm'.
    rewrite length_map, length_seq, fold_swap_at_length, sm_perm_length.
    rewrite sm_ar_length. lia. }
  assert (Hf : length (firstn (length a) (invert perm')) = length a)
    by (rewrite length_firstn; lia).
  apply bool_list_ext; [now rewrite length_map, Hf|].
  intros i Hi. rewrite Hlen in Hi.
  rewrite (H i Hi), (nth_map_lt _ _ 0) by now rewrite Hf.
  rewrite nth_firstn. pose proof Hi as Hb. apply Nat.ltb_lt in Hb.
  rewrite Hb, invert_nth
    by (unfold invert in Hn; rewrite length_map, length_seq in Hn; lia).
  destruct (HP i Hi) as [Hpos Epos].
  change (map (fun i0 => nth i0 (a ++ b) 0%Z) (sm_perm a b))
    with (map (fun i0 => nth i0 (concatenate a b) 0%Z) (sm_perm a b)).
  rewrite (@sm_flagged_iff a b _ Hpos), Epos. reflexivity.
Qed.

End SetmemberExchange.

(** C8 (amended): after the stable sort and the adjacency flags,
    [setmember1d] selects exactly the flagged positions whose origin tag is
    1 (an entry of the second array followed by an equal one) and runs the
    two index assignments [perm[ii+1] = perm[ii]; perm[ii] = aux] over them.
    Afterwards position [j] holds the old right neighbour if [j] is
    selected, else the old left neighbour if [j-1] is selected, else its old
    entry; so the entries at [i] and [i+1] are exchanged for a selected [i]
    whose successor is not selected, the entries that are positions of the
    first array stay where they are, and on a run of three equal entries of
    the second array the result is not a permutation ([[7,5]] against
    [[7,7,7]] leaves [[1,0,3,4,3]]).  The mask is the flags at the first
    [len(a)] entries of the stable argsort of that sequence, and it equals
    the result of the described algorithm with the exchange at tag 1
    (stable sort, flags, exchange, inversion, first [len(a)] entries, flags
    there). *)
Theorem setmember1d_refines_tag1 (a b : list Z) :
  let perm := sm_perm a b in
  let ii := fixup_positions 1 a b in
  let flag := sm_flag (map (fun i => nth i (concatenate a b) 0%Z) perm) in
  setmember1d_ii a b = Some ii /\
  setmember1d_perm a b = Some (exchanged perm ii) /\
  (forall i, In i ii ->
     nth i (exchanged perm ii) 0 = nth (S i) perm 0 /\
     (~ In (S i) ii -> nth (S i) (exchanged perm ii) 0 = nth i perm 0)) /\
  (forall j, j < length perm -> nth j perm 0 < length a ->
     nth j (exchanged perm ii) 0 = nth j perm 0) /\
  setmember1d_perm [7; 5]%Z [7; 7; 7]%Z = Some [1; 0; 3; 4; 3] /\
  setmember1d a b =
    take flag
         (firstn (length a)
                 (argsort_stable (map Z.of_nat (exchanged perm ii)))) /\
  setmember1d a b = Some (Membership_algorithm 1 a b).
Proof.
  intros perm ii flag. split; [|split; [|split; [|split; [|split; [|split]]]]].
  - unfold setmember1d_ii. cbv zeta.
    rewrite sm_take_aux, bind_Some, sm_take_aux2, bind_Some.
    now rewrite sm_ii_fixup_positions.
  - apply setmember1d_perm_exchanged.
  - apply exchanged_at.
  - apply exchanged_keeps_first.
  - reflexivity.
  - apply setmember1d_from_exchanged.
  - apply setmember1d_Membership_algorithm.
Qed.

(* ================================================================== *)
(** ** Mask selections *)
(* ================================================================== *)

Lemma adjacent_ne_cons2 (x y : Z) (r : list Z) :
  adjacent_ne (x :: y :: r) = negb (y =? x)%Z :: adjacent_ne (y :: r).
Proof. reflexivity. Qed.

Lemma adjacent_eq_cons2 (x y : Z) (r : list Z) :
  adjacent_eq (x :: y :: r) = (y =? x)%Z :: adjacent_eq (y :: r).
Proof. reflexivity. Qed.

Lemma compress_adjacent_ne (x : Z) (r : list Z) :
  compress (adjacent_ne (x :: r)) r = keep_changes x r.
Proof.
  revert x; induction r as [|y r IH]; intros x; [reflexivity|].
  rewrite adjacent_ne_cons2. simpl. now rewrite IH.
Qed.

Lemma compress_adjacent_eq (l : list Z) :
  compress (adjacent_eq l) l = keep_repeats l.
Proof.
  induction l as [|x [|y r] IH]; [reflexivity|reflexivity|].
  rewrite adjacent_eq_cons2.
  change (keep_repeats (x :: y :: r))
    with (if (y =? x)%Z then x :: keep_repeats (y :: r)
          else keep_repeats (y :: r)).
  rewrite <- IH. reflexivity.
Qed.

Lemma compress_map (A B : Type) (f : A -> B) (mask : list bool) (l : list A) :
  compress mask (map f l) = map f (compress mask l).
Proof.
  revert l; induction mask as [|m mask IH]; intros [|x l]; simpl; auto.
  destruct m; simpl; now rewrite IH.
Qed.

Lemma compress_In (A : Type) (mask : list bool) (l : list A) (x : A) :
  In x (compress mask l) -> In x l.
Proof.
  revert l; induction mask as [|m mask IH]; intros [|y l]; simpl; auto.
  - intros [].
  - destruct m; simpl; intros H; [destruct H as [H|H]|]; auto.
Qed.

Lemma compress_sorted (A : Type) (R : A -> A -> Prop) (mask : list bool)
      (l : list A) :
  StronglySorted R l -> StronglySorted R (compress mask l).
Proof.
  intros H; revert mask; induction H as [|x r Hr IH Hx]; intros [|m mask];
    simpl; try constructor.
  destruct m; [|apply IH].
  constructor; [apply IH|].
  rewrite Forall_forall in *. intros y Hy. apply Hx. eapply compress_In, Hy.
Qed.

(** The dedup selection, for an array already sorted. *)
Lemma dedup_select (l : list Z) :
  compress (concatenate [true] (adjacent_ne l)) l =
  match l with
  | [] => []
  | x :: r => x :: keep_changes x r
  end.
Proof.
  destruct l as [|x r]; [reflexivity|].
  simpl. now rewrite compress_adjacent_ne.
Qed.

Lemma keep_changes_sorted (x : Z) (r : list Z) :
  StronglySorted Z.le (x :: r) ->
  Forall (fun y => (x < y)%Z) (keep_changes x r) /\
  StronglySorted Z.lt (keep_changes x r) /\
  (forall z, In z (x :: keep_changes x r) <-> In z (x :: r)).
Proof.
  revert x; induction r as [|y r IH]; intros x H.
  - simpl. split; [constructor|]. split; [constructor|]. tauto.
  - apply StronglySorted_inv in H. destruct H as [Hyr Hx].
    destruct (IH y Hyr) as (F & S & I).
    inversion Hx as [|? ? Hxy Hxr]; subst.
    simpl. destruct (Z.eqb_spec y x) as [->|Hne]; simpl.
    + repeat split; auto.
      * intros Hz. apply I in Hz. simpl in *. tauto.
      * intros Hz. apply I. simpl in *. tauto.
    + assert (Hlt : (x < y)%Z) by lia.
      repeat split.
      * constructor; [exact Hlt|].
        eapply Forall_impl; [|exact F]. cbv beta; intros; lia.
      * now constructor.
      * intros [Hz|Hz]; [now left|]. right. now apply I.
      * intros [Hz|Hz]; [now left|]. right. now apply I.
Qed.

Lemma dedup_select_sorted (l : list Z) :
  StronglySorted Z.le l ->
  StronglySorted Z.lt (compress (concatenate [true] (adjacent_ne l)) l) /\
  (forall z, In z (compress (concatenate [true] (adjacent_ne l)) l) <->
             In z l).
Proof.
  intros H. rewrite dedup_select. destruct l as [|x r].
  - split; [constructor|tauto].
  - destruct (keep_changes_sorted H) as (F & S & I).
    split; [now constructor|exact I].
Qed.

Lemma keep_changes_strict (x : Z) (r : list Z) :
  StronglySorted Z.lt (x :: r) -> keep_changes x r = r.
Proof.
  revert x; induction r as [|y r IH]; intros x H; [reflexivity|].
  apply StronglySorted_inv in H. destruct H as [Hyr Hx].
  inversion Hx as [|? ? Hxy _]; subst. simpl.
  destruct (Z.eqb_spec y x) as [->|_]; [lia|]. simpl. now rewrite IH.
Qed.

Lemma lt_sorted_le (l : list Z) :
  StronglySorted Z.lt l -> StronglySorted Z.le l.
Proof.
  apply StronglySorted_impl. intros; lia.
Qed.

Lemma lt_sorted_NoDup (l : list Z) : StronglySorted Z.lt l -> NoDup l.
Proof.
  induction 1 as [|x r Hr IH Hx]; constructor; [|exact IH].
  rewrite Forall_forall in Hx. intros Hin. specialize (Hx x Hin). lia.
Qed.

Lemma le_sorted_NoDup_lt (l : list Z) :
  StronglySorted Z.le l -> NoDup l -> StronglySorted Z.lt l.
Proof.
  induction 1 as [|x r Hr IH Hx]; intros HN; constructor;
    inversion HN; subst.
  - now apply IH.
  - rewrite Forall_forall in *. intros y Hy.
    specialize (Hx y Hy). assert (x <> y) by congruence. lia.
Qed.

(** *** [unique1d] *)

Lemma unique1d_select (ar : list Z) :
  unique1d ar =
  compress (concatenate [true] (adjacent_ne (sort ar))) (sort ar).
Proof.
  unfold unique1d, size. destruct ar as [|x r]; reflexivity.
Qed.

Lemma unique1d_sorted (ar : list Z) : StronglySorted Z.lt (unique1d ar).
Proof.
  rewrite unique1d_select. apply dedup_select_sorted, sort_sorted.
Qed.

Lemma unique1d_In (ar : list Z) (z : Z) : In z (unique1d ar) <-> In z ar.
Proof.
  rewrite unique1d_select.
  rewrite (proj2 (dedup_select_sorted (sort_sorted ar))). apply sort_In.
Qed.

Lemma unique1d_strict (l : list Z) : StronglySorted Z.lt l -> unique1d l = l.
Proof.
  intros H. rewrite unique1d_select.
  rewrite (sort_unique (Permutation_refl l) (lt_sorted_le H)).
  rewrite dedup_select. destruct l as [|x r]; [reflexivity|].
  now rewrite keep_changes_strict.
Qed.

Lemma unique1d_NoDup (l : list Z) : NoDup l -> unique1d l = sort l.
Proof.
  intros H. rewrite unique1d_select, dedup_select.
  pose proof (sort_sorted l) as HS.
  assert (HN : NoDup (sort l))
    by (eapply Permutation_NoDup; [symmetry; apply sort_perm|exact H]).
  destruct (sort l) as [|x r]; [reflexivity|].
  rewrite keep_changes_strict; [reflexivity|].
  now apply le_sorted_NoDup_lt.
Qed.

(** C5: [unique1d] is idempotent, and its result is strictly ascending, so no
    two neighbours in it are equal. *)
Theorem unique1d_idempotent (s : list Z) :
  unique1d (unique1d s) = unique1d s /\
  StronglySorted Z.lt (unique1d s) /\
  (forall i, S i < length (unique1d s) ->
     nth i (unique1d s) 0%Z <> nth (S i) (unique1d s) 0%Z).
Proof.
  pose proof (unique1d_sorted s) as HS.
  split; [now apply unique1d_strict|]. split; [exact HS|].
  intros i Hi.
  pose proof (StronglySorted_nth 0%Z HS (Nat.lt_succ_diag_r i) Hi). lia.
Qed.

Section Unique1dIndexFacts.
Variable argsort : list Z -> list nat.
Hypothesis argsort_ok : forall l, is_argsort l (argsort l).

Lemma argsort_bound (s : list Z) : Forall (fun i => i < length s) (argsort s).
Proof.
  destruct (argsort_ok s) as [HP _].
  rewrite HP, Forall_forall. intros i Hi. apply in_seq in Hi. lia.
Qed.

(** On non-empty input the gather [ar[perm]] stays in bounds, and the result
    is the pair [(perm[flag], aux[flag])]. *)
Lemma unique1d_index_nonempty (s : list Z) :
  s <> [] ->
  unique1d_index argsort s =
  Some (IntpArray
          (compress
             (concatenate [true]
                (adjacent_ne (map (fun i => nth i s 0%Z) (argsort s))))
             (argsort s)),
        compress
          (concatenate [true]
             (adjacent_ne (map (fun i => nth i s 0%Z) (argsort s))))
          (map (fun i => nth i s 0%Z) (argsort s))).
Proof.
  intros Hs. unfold unique1d_index, size.
  destruct s as [|x r]; [congruence|].
  change (length (x :: r) =? 0) with false. cbv zeta iota.
  now rewrite (take_Some (x :: r) 0%Z (argsort_bound (x :: r))), bind_Some.
Qed.

(** C6: with [return_index=True], [unique1d] returns indices and values of
    the same length, each value is the entry of the (flattened) input at its
    index, and the values are strictly ascending. *)
Theorem unique1d_index_correct (s : list Z) :
  exists idx vals, unique1d_index argsort s = Some (idx, vals) /\
    ndarray_size idx = length vals /\
    (forall i, i < length vals ->
       nth_error s (nth i (ndarray_indices idx) 0) = Some (nth i vals 0%Z)) /\
    StronglySorted Z.lt vals.
Proof.
  destruct s as [|x r].
  - exists (BoolArray []), []. repeat split; try constructor.
    simpl; intros; lia.
  - set (s := x :: r).
    rewrite (@unique1d_index_nonempty s) by discriminate.
    set (f := fun i => nth i s 0%Z).
    set (flag := concatenate [true] (adjacent_ne (map f (argsort s)))).
    exists (IntpArray (compress flag (argsort s))),
           (compress flag (map f (argsort s))).
    rewrite compress_map. split; [reflexivity|].
    split; [simpl; now rewrite length_map|]. split.
    + intros i Hi. rewrite length_map in Hi. simpl ndarray_indices.
      rewrite (nth_map_lt _ _ 0) by exact Hi.
      apply nth_error_nth'.
      pose proof (argsort_bound s) as HB.
      rewrite Forall_forall in HB. apply HB.
      eapply compress_In, nth_In, Hi.
    + rewrite <- compress_map.
      apply dedup_select_sorted, (proj2 (argsort_ok s)).
Qed.

End Unique1dIndexFacts.

Lemma unique1d_index_correct_witness :
  (forall l, is_argsort l (argsort_stable l)) /\
  exists idx vals,
    unique1d_index argsort_stable [3; 1; 1; 2]%Z = Some (idx, vals) /\
    ndarray_size idx = length vals /\
    (forall i, i < length vals ->
       nth_error [3; 1; 1; 2]%Z (nth i (ndarray_indices idx) 0) =
       Some (nth i vals 0%Z)) /\
    StronglySorted Z.lt vals.
Proof.
  split; [exact argsort_stable_is_argsort|].
  exact (@unique1d_index_correct argsort_stable argsort_stable_is_argsort
           [3; 1; 1; 2]%Z).
Defined.

(** C10: on empty input [unique1d] returns the empty array; with
    [return_index=True] it returns an empty boolean array of indices with the
    empty values, whereas on non-empty input the indices are an integer
    array. *)
Theorem unique1d_empty :
  unique1d [] = [] /\
  (forall argsort, unique1d_index argsort [] = Some (BoolArray [], [])) /\
  (forall argsort, (forall l, is_argsort l (argsort l)) ->
     forall x r, exists d vals,
       unique1d_index argsort (x :: r) = Some (IntpArray d, vals)).
Proof.
  split; [reflexivity|]. split; [reflexivity|].
  intros argsort Hok x r.
  rewrite (@unique1d_index_nonempty argsort Hok (x :: r)) by discriminate.
  eauto.
Qed.

(* ================================================================== *)
(** ** Runs of equal values, and the intersections *)
(* ================================================================== *)

Lemma runs_cons (x : Z) (t : list Z) :
  runs (x :: t) =
  match runs t with
  | (y, k) :: rs => if (x =? y)%Z then (y, S k) :: rs
                    else (x, 1) :: (y, k) :: rs
  | [] => [(x, 1)]
  end.
Proof. reflexivity. Qed.

Lemma runs_head (y : Z) (t : list Z) :
  exists k rs, runs (y :: t) = (y, S k) :: rs.
Proof.
  rewrite runs_cons. destruct (runs t) as [|[z k] rs]; [now exists 0, []|].
  destruct (Z.eqb_spec y z) as [->|_]; eauto.
Qed.

(** [runs] is a run-length encoding: expanding it gives the sequence back,
    every run has at least one entry, and neighbouring runs have different
    values (each run is maximal). *)
Lemma runs_expand (l : list Z) : copies (fun k => k) (runs l) = l.
Proof.
  induction l as [|x t IH]; [reflexivity|].
  rewrite runs_cons. destruct (runs t) as [|[y k] rs]; simpl in *.
  - now rewrite <- IH.
  - destruct (Z.eqb_spec x y) as [->|_]; simpl; now rewrite <- IH.
Qed.

Lemma runs_maximal (l : list Z) :
  Sorted (fun r s => fst r <> fst s) (runs l) /\
  Forall (fun r => 1 <= snd r) (runs l).
Proof.
  induction l as [|x t [IHs IHf]]; [split; constructor|].
  rewrite runs_cons. destruct (runs t) as [|[y k] rs].
  - split; repeat constructor.
  - destruct (Z.eqb_spec x y) as [->|Hne].
    + inversion IHs; subst. inversion IHf; subst. split.
      * constructor; [assumption|].
        destruct rs; constructor.
        match goal with H : HdRel _ _ (_ :: _) |- _ => inversion H; subst end.
        assumption.
      * constructor; [simpl; lia|assumption].
    + split.
      * constructor; [exact IHs|]. constructor. exact Hne.
      * constructor; [simpl; lia|exact IHf].
Qed.

Lemma keep_repeats_cons2 (x y : Z) (t : list Z) :
  keep_repeats (x :: y :: t) =
  if (y =? x)%Z then x :: keep_repeats (y :: t) else keep_repeats (y :: t).
Proof. reflexivity. Qed.

(** Of every run, all entries but one are kept. *)
Lemma keep_repeats_runs (l : list Z) :
  keep_repeats l = copies (fun k => k - 1) (runs l).
Proof.
  induction l as [|x t IH]; [reflexivity|].
  destruct t as [|y t]; [reflexivity|].
  rewrite keep_repeats_cons2, IH, (runs_cons x (y :: t)).
  destruct (runs_head y t) as (k & rs & ->).
  rewrite (Z.eqb_sym y x).
  destruct (Z.eqb_spec x y) as [->|_]; unfold copies; simpl.
  - now rewrite Nat.sub_0_r.
  - reflexivity.
Qed.

Lemma le_sorted_head_absent (x y : Z) (r : list Z) :
  StronglySorted Z.le (x :: y :: r) -> x <> y ->
  count_occ Z.eq_dec (y :: r) x = 0.
Proof.
  intros H Hne. apply count_occ_not_In. intros Hin.
  apply StronglySorted_inv in H. destruct H as [Hyr Hx].
  inversion Hx as [|? ? Hxy _]; subst.
  apply StronglySorted_inv in Hyr. destruct Hyr as [_ Hy].
  destruct Hin as [->|Hin]; [congruence|].
  rewrite Forall_forall in Hy. specialize (Hy x Hin). lia.
Qed.

Lemma keep_repeats_count (l : list Z) (v : Z) :
  StronglySorted Z.le l ->
  count_occ Z.eq_dec (keep_repeats l) v = count_occ Z.eq_dec l v - 1.
Proof.
  induction l as [|x t IH]; intros H; [reflexivity|].
  destruct t as [|y t].
  - simpl. destruct (Z.eq_dec x v); reflexivity.
  - pose proof (proj1 (StronglySorted_inv H)) as Ht. specialize (IH Ht).
    rewrite keep_repeats_cons2.
    destruct (Z.eqb_spec y x) as [->|Hne].
    + destruct (Z.eq_dec x v) as [->|Hxv].
      * rewrite !count_occ_cons_eq by reflexivity.
        rewrite IH, count_occ_cons_eq by reflexivity. lia.
      * rewrite (count_occ_cons_neq _ (keep_repeats (x :: t)) Hxv).
        rewrite (count_occ_cons_neq _ (x :: t) Hxv). exact IH.
    + rewrite IH. destruct (Z.eq_dec x v) as [->|Hxv].
      * rewrite (@count_occ_cons_eq Z Z.eq_dec (y :: t) v v eq_refl).
        rewrite (@le_sorted_head_absent v y t H) by congruence. reflexivity.
      * now rewrite (count_occ_cons_neq _ (y :: t) Hxv).
Qed.

Lemma intersect1d_select (a b : list Z) :
  intersect1d a b = keep_repeats (sort (concatenate a b)).
Proof. apply compress_adjacent_eq. Qed.

Lemma intersect1d_nu_select (a b : list Z) :
  intersect1d_nu a b =
  keep_repeats (sort (concatenate (unique1d a) (unique1d b))).
Proof. apply compress_adjacent_eq. Qed.

(** C2: [intersect1d] sorts the concatenation and returns, run by run in
    ascending order, one copy fewer than the run has; so a value with [k]
    occurrences in the concatenation has [k - 1] in the result; and
    [intersect1d([1,3,3],[3,1,1])] is [[1,1,3,3]]. *)
Theorem intersect1d_runs (a b : list Z) :
  intersect1d a b =
    copies (fun k => k - 1) (runs (sort (concatenate a b))) /\
  StronglySorted Z.le (intersect1d a b) /\
  (forall v, count_occ Z.eq_dec (intersect1d a b) v =
             count_occ Z.eq_dec (concatenate a b) v - 1) /\
  intersect1d [1; 3; 3]%Z [3; 1; 1]%Z = [1; 1; 3; 3]%Z.
Proof.
  split; [|split; [|split]].
  - rewrite intersect1d_select. apply keep_repeats_runs.
  - apply compress_sorted, sort_sorted.
  - intros v. rewrite intersect1d_select.
    rewrite keep_repeats_count by apply sort_sorted.
    now rewrite (proj1 (Permutation_count_occ Z.eq_dec _ _)
                       (sort_perm (concatenate a b)) v).
  - reflexivity.
Qed.

Lemma intersect1d_nu_In (a b : list Z) (x : Z) :
  In x (intersect1d_nu a b) <-> In x a /\ In x b.
Proof.
  rewrite intersect1d_nu_select.
  rewrite (count_occ_In Z.eq_dec), keep_repeats_count by apply sort_sorted.
  rewrite (proj1 (Permutation_count_occ Z.eq_dec _ _) (sort_perm _) x).
  unfold concatenate. rewrite count_occ_app.
  pose proof (proj1 (NoDup_count_occ Z.eq_dec _)
                (lt_sorted_NoDup (unique1d_sorted a)) x) as Ha.
  pose proof (proj1 (NoDup_count_occ Z.eq_dec _)
                (lt_sorted_NoDup (unique1d_sorted b)) x) as Hb.
  rewrite <- (unique1d_In a x), <- (unique1d_In b x).
  rewrite !(count_occ_In Z.eq_dec). lia.
Qed.

Lemma compress_nth_In (A : Type) (d : A) (mask : list bool) (l : list A)
      (x : A) :
  In x (compress mask l) <->
  exists i, i < length l /\ nth i mask false = true /\ nth i l d = x.
Proof.
  revert l; induction mask as [|m mask IH]; intros l.
  - simpl. split; [intros []|]. intros (i & _ & H & _). now destruct i.
  - destruct l as [|y l]; simpl.
    + split; [intros []|]. intros (i & Hi & _). lia.
    + assert (IH' : In x (compress mask l) <->
               exists i, S i < S (length l) /\
                         nth (S i) (m :: mask) false = true /\
                         nth (S i) (y :: l) d = x).
      { rewrite IH. split; intros (i & Hi & H); exists i; simpl;
          (split; [lia|exact H]). }
      destruct m; simpl; split.
      * intros [->|Hin]; [exists 0; repeat split; lia|].
        apply IH' in Hin. destruct Hin as (i & H). now exists (S i).
      * intros ([|i] & Hi & Hm & Hx); [now left|right].
        apply IH'. now exists i.
      * intros Hin. apply IH' in Hin. destruct Hin as (i & H). now exists (S i).
      * intros ([|i] & Hi & Hm & Hx); [discriminate|].
        apply IH'. now exists i.
Qed.

Lemma setdiff1d_In (a b : list Z) :
  NoDup a ->
  exists d, setdiff1d a b = Some d /\
    forall x, In x (ndarray_values d) <-> In x a /\ ~ In x b.
Proof.
  intros Ha.
  destruct (setmember1d_nodup_mask b Ha) as (mask & E & Hlen & H).
  unfold setdiff1d. rewrite E, bind_Some. unfold size.
  destruct (Nat.eqb_spec (length mask) 0) as [H0|H0].
  - exists (BoolArray mask). split; [reflexivity|].
    destruct mask; [|discriminate]. destruct a; [|discriminate].
    simpl. tauto.
  - exists (IntArray (compress (eq_zero mask) a)). split; [reflexivity|].
    intros x. simpl. rewrite (compress_nth_In 0%Z). unfold eq_zero. split.
    + intros (i & Hi & Hm & <-).
      rewrite (nth_map_lt _ _ false) in Hm by lia.
      apply negb_true_iff in Hm. split; [now apply nth_In|].
      intros Hin. apply (H i Hi) in Hin. congruence.
    + intros [Hin Hnb]. destruct (In_nth _ _ 0%Z Hin) as (i & Hi & <-).
      exists i. split; [exact Hi|]. split; [|reflexivity].
      rewrite (nth_map_lt _ _ false) by lia. apply negb_true_iff.
      destruct (nth i mask false) eqn:Em; [|reflexivity].
      now apply (H i Hi) in Em.
Qed.

(** C7: for duplicate-free [a] and [b], [setdiff1d(a, b)] and
    [intersect1d_nu(a, b)] have no value in common, and together they hold
    exactly the values of [unique1d(a)]. *)
Theorem setdiff1d_partition (a b : list Z) :
  NoDup a -> NoDup b ->
  exists d, setdiff1d a b = Some d /\
    (forall x, ~ (In x (ndarray_values d) /\ In x (intersect1d_nu a b))) /\
    (forall x, In x (ndarray_values d) \/ In x (intersect1d_nu a b) <->
               In x (unique1d a)).
Proof.
  intros Ha _. destruct (setdiff1d_In b Ha) as (d & E & H).
  exists d. split; [exact E|]. split; intros x.
  - rewrite H, intersect1d_nu_In. tauto.
  - rewrite H, intersect1d_nu_In, unique1d_In.
    destruct (in_dec Z.eq_dec x b); tauto.
Qed.

Lemma setdiff1d_partition_witness :
  NoDup [1; 2; 3; 4]%Z /\ NoDup [2; 4]%Z /\
  exists d, setdiff1d [1; 2; 3; 4]%Z [2; 4]%Z = Some d /\
    (forall x, ~ (In x (ndarray_values d) /\
                  In x (intersect1d_nu [1; 2; 3; 4]%Z [2; 4]%Z))) /\
    (forall x, In x (ndarray_values d) \/
               In x (intersect1d_nu [1; 2; 3; 4]%Z [2; 4]%Z) <->
               In x (unique1d [1; 2; 3; 4]%Z)).
Proof.
  assert (Ha : NoDup [1; 2; 3; 4]%Z).
  { repeat (constructor; [simpl; intuition discriminate|]). constructor. }
  assert (Hb : NoDup [2; 4]%Z).
  { repeat (constructor; [simpl; intuition discriminate|]). constructor. }
  split; [exact Ha|]. split; [exact Hb|].
  exact (setdiff1d_partition Ha Hb).
Defined.

(* ================================================================== *)
(** ** [setxor1d] *)
(* ================================================================== *)

Lemma setxor1d_flag2_flag (l : list Z) :
  setxor1d_flag2 (setxor1d_flag l) =
  eq_barr (adjacent_ne l ++ [true]) (true :: adjacent_ne l).
Proof.
  unfold setxor1d_flag2, setxor1d_flag, concatenate.
  change ([true] ++ adjacent_ne l ++ [true])
    with ((true :: adjacent_ne l) ++ [true]) at 2.
  now rewrite removelast_last.
Qed.

Lemma xor_select (f : bool) (x : Z) (t : list Z) :
  compress (eq_barr (adjacent_ne (x :: t) ++ [true])
                    (f :: adjacent_ne (x :: t))) (x :: t) =
  xor_keep f (x :: t).
Proof.
  revert f x; induction t as [|y t IH]; intros f x.
  - simpl. destruct f; reflexivity.
  - rewrite adjacent_ne_cons2.
    change (xor_keep f (x :: y :: t))
      with (if Bool.eqb (negb (y =? x)%Z) f
            then x :: xor_keep (negb (y =? x)%Z) (y :: t)
            else xor_keep (negb (y =? x)%Z) (y :: t)).
    rewrite <- IH. reflexivity.
Qed.

Lemma setxor1d_select (a b : list Z) :
  setxor1d a b = xor_keep true (sort (concatenate a b)).
Proof.
  unfold setxor1d, size. cbv zeta.
  destruct (concatenate a b) as [|x r] eqn:E; [reflexivity|].
  change (length (x :: r) =? 0) with false. cbv iota.
  rewrite setxor1d_flag2_flag.
  pose proof (sort_length (x :: r)) as Hl.
  destruct (sort (x :: r)) as [|y s]; [discriminate|].
  apply xor_select.
Qed.

(** When no value occurs more than twice, every entry is either kept by the
    exclusive-or selection or belongs to a pair of which the intersection
    selection keeps one. *)
Lemma xor_keep_length (l : list Z) :
  forall f,
    l <> [] ->
    (forall v, count_occ Z.eq_dec l v <= 2) ->
    (f = false -> count_occ Z.eq_dec l (hd 0%Z l) <= 1) ->
    length l =
    length (xor_keep f l) + 2 * length (keep_repeats l) +
    (if f then 0 else 1).
Proof.
  induction l as [|x t IH]; intros f Hne H2 H1; [congruence|].
  destruct t as [|y t].
  - simpl. destruct f; reflexivity.
  - assert (IH' : forall f',
              (f' = false -> count_occ Z.eq_dec (y :: t) y <= 1) ->
              length (y :: t) =
              length (xor_keep f' (y :: t)) +
              2 * length (keep_repeats (y :: t)) + (if f' then 0 else 1)).
    { intros f' Hf'. apply IH; [discriminate| |exact Hf'].
      intros v. specialize (H2 v).
      change (x :: y :: t) with ([x] ++ (y :: t)) in H2.
      rewrite count_occ_app in H2. lia. }
    rewrite keep_repeats_cons2.
    change (xor_keep f (x :: y :: t))
      with (if Bool.eqb (negb (y =? x)%Z) f
            then x :: xor_keep (negb (y =? x)%Z) (y :: t)
            else xor_keep (negb (y =? x)%Z) (y :: t)).
    destruct (Z.eqb_spec y x) as [->|Hyx]; cbn [negb].
    + pose proof (H2 x) as Hx.
      rewrite (@count_occ_cons_eq Z Z.eq_dec (x :: t) x x eq_refl) in Hx.
      specialize (IH' false ltac:(intros _; lia)).
      destruct f; cbn [Bool.eqb].
      * cbn [length] in *. lia.
      * specialize (H1 eq_refl). cbn [hd] in H1.
        rewrite (@count_occ_cons_eq Z Z.eq_dec (x :: t) x x eq_refl) in H1.
        rewrite (@count_occ_cons_eq Z Z.eq_dec t x x eq_refl) in H1. lia.
    + specialize (IH' true ltac:(discriminate)).
      destruct f; cbn [Bool.eqb]; cbn [length] in *; lia.
Qed.

(** C4: for duplicate-free [a] and [b], the length of [setxor1d(a, b)] is
    [len(a) + len(b) - 2 * len(intersect1d_nu(a, b))]. *)
Theorem setxor1d_length (a b : list Z) :
  NoDup a -> NoDup b ->
  length (setxor1d a b) =
  length a + length b - 2 * length (intersect1d_nu a b).
Proof.
  intros Ha Hb.
  rewrite setxor1d_select, intersect1d_nu_select.
  rewrite (unique1d_NoDup Ha), (unique1d_NoDup Hb).
  assert (E : sort (concatenate (sort a) (sort b)) = sort (concatenate a b)).
  { apply sort_unique; [|apply sort_sorted].
    rewrite sort_perm. unfold concatenate.
    now rewrite (sort_perm a), (sort_perm b). }
  rewrite E.
  destruct (concatenate a b) as [|x r] eqn:Eab.
  - unfold concatenate in Eab. apply app_eq_nil in Eab.
    destruct Eab as [-> ->]. reflexivity.
  - assert (Hlen : length (sort (x :: r)) = length a + length b).
    { rewrite sort_length, <- Eab. apply length_app. }
    rewrite <- Hlen.
    enough (length (sort (x :: r)) =
            length (xor_keep true (sort (x :: r))) +
            2 * length (keep_repeats (sort (x :: r))) + 0) by lia.
    apply xor_keep_length.
    + intros C. apply (f_equal (@length Z)) in C.
      rewrite sort_length in C. discriminate.
    + intros v.
      rewrite (proj1 (Permutation_count_occ Z.eq_dec _ _) (sort_perm _) v).
      rewrite <- Eab. unfold concatenate. rewrite count_occ_app.
      pose proof (proj1 (NoDup_count_occ Z.eq_dec _) Ha v).
      pose proof (proj1 (NoDup_count_occ Z.eq_dec _) Hb v). lia.
    + discriminate.
Qed.

Lemma setxor1d_length_witness :
  NoDup [1; 3; 5]%Z /\ NoDup [3; 4]%Z /\
  length (setxor1d [1; 3; 5]%Z [3; 4]%Z) =
  length [1; 3; 5]%Z + length [3; 4]%Z -
  2 * length (intersect1d_nu [1; 3; 5]%Z [3; 4]%Z).
Proof.
  assert (Ha : NoDup [1; 3; 5]%Z).
  { repeat (constructor; [simpl; intuition discriminate|]). constructor. }
  assert (Hb : NoDup [3; 4]%Z).
  { repeat (constructor; [simpl; intuition discriminate|]). constructor. }
  split; [exact Ha|]. split; [exact Hb|].
  exact (setxor1d_length Ha Hb).
Defined.

Lemma adjacent_ne_length (m : list Z) :
  length (adjacent_ne m) = length m - 1.
Proof.
  induction m as [|x [|y r] IH]; [reflexivity|reflexivity|].
  rewrite adjacent_ne_cons2. cbn [length] in *. lia.
Qed.

Lemma adjacent_ne_nth (m : list Z) (i : nat) :
  S i < length m ->
  nth i (adjacent_ne m) false =
  negb (nth (S i) m 0 =? nth i m 0)%Z.
Proof.
  revert i; induction m as [|x [|y r] IH]; intros i Hi;
    [simpl in Hi; lia|simpl in Hi; lia|].
  rewrite adjacent_ne_cons2. destruct i as [|i]; [reflexivity|].
  cbn [length] in Hi.
  change (nth (S i) (negb (y =? x)%Z :: adjacent_ne (y :: r)) false)
    with (nth i (adjacent_ne (y :: r)) false).
  rewrite IH by (cbn [length]; lia). reflexivity.
Qed.

(** A mask as long as the array selects the entries at the positions where
    it is true. *)
Lemma compress_index (A : Type) (d : A) (mask : list bool) (l : list A) :
  length mask = length l ->
  compress mask l =
  map (fun i => nth i l d)
      (filter (fun i => nth i mask false) (seq 0 (length l))).
Proof.
  revert l; induction mask as [|m mask IH]; intros [|x l] Hlen;
    try discriminate; [reflexivity|].
  cbn [length seq]. rewrite <- seq_shift.
  cbn [compress filter nth]. rewrite filter_map_swap.
  rewrite (IH l) by (simpl in Hlen; lia).
  destruct m; cbn [map nth]; rewrite map_map; reflexivity.
Qed.

Section XorFlags.
Variable m : list Z.
Hypothesis m_nonempty : m <> [].

Lemma setxor1d_flag_length : length (setxor1d_flag m) = length m + 1.
Proof.
  unfold setxor1d_flag, concatenate.
  cbn [length app]. rewrite length_app, adjacent_ne_length. cbn [length].
  destruct m; [congruence|]. cbn [length]. lia.
Qed.

Lemma setxor1d_flag_nth (i : nat) :
  i <= length m -> nth i (setxor1d_flag m) false = xor_f m i.
Proof.
  intros Hi. unfold setxor1d_flag, concatenate, xor_f.
  destruct i as [|k]; [reflexivity|].
  change (nth (S k) ([true] ++ adjacent_ne m ++ [true]) false)
    with (nth k (adjacent_ne m ++ [true]) false).
  change (S k =? 0) with false. cbn [orb].
  destruct (Nat.eqb_spec (S k) (length m)) as [E|E].
  - rewrite app_nth2; rewrite adjacent_ne_length; [|lia].
    replace (k - (length m - 1)) with 0 by lia. reflexivity.
  - rewrite app_nth1 by (rewrite adjacent_ne_length; lia).
    rewrite adjacent_ne_nth by lia.
    now replace (S k - 1) with k by lia.
Qed.

Lemma setxor1d_flag2_length :
  length (setxor1d_flag2 (setxor1d_flag m)) = length m.
Proof.
  rewrite setxor1d_flag2_flag. unfold eq_barr.
  rewrite zip_with_length, length_app. cbn [length].
  rewrite adjacent_ne_length. destruct m; [congruence|]. cbn [length]. lia.
Qed.

Lemma setxor1d_flag2_nth (i : nat) :
  i < length m ->
  nth i (setxor1d_flag2 (setxor1d_flag m)) false = xor_g m i.
Proof.
  intros Hi. rewrite setxor1d_flag2_flag. unfold eq_barr, xor_g.
  assert (Hne : length (adjacent_ne m) = length m - 1)
    by apply adjacent_ne_length.
  rewrite (zip_with_nth _ _ _ false false)
    by (rewrite ?length_app; cbn [length]; lia).
  rewrite <- (setxor1d_flag_nth (i := i)) by lia.
  rewrite <- (setxor1d_flag_nth (i := S i)) by lia.
  unfold setxor1d_flag, concatenate.
  change (nth (S i) ([true] ++ adjacent_ne m ++ [true]) false)
    with (nth i (adjacent_ne m ++ [true]) false).
  change ([true] ++ adjacent_ne m ++ [true])
    with ((true :: adjacent_ne m) ++ [true]).
  rewrite (app_nth1 (true :: adjacent_ne m)) by (cbn [length]; lia).
  destruct (nth i (adjacent_ne m ++ [true]) false),
           (nth i (true :: adjacent_ne m) false); reflexivity.
Qed.

End XorFlags.

(** C9, as stated, fails on the length of the flag sequence: for a sorted
    [m] of one entry the code builds two flags, not three. *)
Lemma setxor1d_flag_counterexample :
  sort (concatenate [1]%Z []) = [1]%Z /\
  setxor1d_flag (sort (concatenate [1]%Z [])) = [true; true] /\
  length (setxor1d_flag (sort (concatenate [1]%Z []))) <>
  length (sort (concatenate [1]%Z [])) + 2.
Proof. repeat split. simpl. discriminate. Qed.

(** C9 (amended): [setxor1d] concatenates and sorts the inputs into [m];
    when [m] is not empty it builds a flag sequence [f] of length
    [len(m) + 1] with [f[0]] and [f[len(m)]] true and, in between,
    [f[i] = (m[i] != m[i-1])], then [g[i] = (f[i] == f[i+1])] for each
    neighbouring pair of [f]; the result is every [m[i]] where [g[i]] is
    true (and is empty when [m] is). *)
Theorem setxor1d_refines (a b : list Z) :
  let m := sort (concatenate a b) in
  (m <> [] ->
     length (setxor1d_flag m) = length m + 1 /\
     (forall i, i <= length m -> nth i (setxor1d_flag m) false = xor_f m i) /\
     length (setxor1d_flag2 (setxor1d_flag m)) = length m /\
     (forall i, i < length m ->
        nth i (setxor1d_flag2 (setxor1d_flag m)) false = xor_g m i)) /\
  setxor1d a b = SymmetricDifference_spec a b.
Proof.
  intros m. split.
  - intros Hm. split; [now apply setxor1d_flag_length|].
    split; [intros; now apply setxor1d_flag_nth|].
    split; [now apply setxor1d_flag2_length|].
    intros; now apply setxor1d_flag2_nth.
  - unfold setxor1d, SymmetricDifference_spec, size. cbv zeta.
    change (a ++ b) with (concatenate a b). fold m.
    destruct (concatenate a b) as [|x r] eqn:E; [reflexivity|].
    change (length (x :: r) =? 0) with false. cbv iota.
    assert (Hm : m <> []).
    { intros C. apply (f_equal (@length Z)) in C.
      unfold m in C. rewrite sort_length in C. discriminate. }
    rewrite (compress_index 0%Z) by now apply setxor1d_flag2_length.
    f_equal. apply filter_ext_in. intros i Hi. apply in_seq in Hi.
    apply setxor1d_flag2_nth. lia.
Qed.

(* ================================================================== *)
(** ** The documented examples *)
(* ================================================================== *)

Example unique1d_doc : unique1d [1; 1; 2; 2; 3; 3]%Z = [1; 2; 3]%Z.
Proof. reflexivity. Qed.

Example intersect1d_nu_doc :
  intersect1d_nu [1; 3; 3]%Z [3; 1; 1]%Z = [1; 3]%Z.
Proof. reflexivity. Qed.

Example setmember1d_doc :
  setmember1d [1; 2; 3; 4]%Z [2; 4]%Z = Some [false; true; false; true].
Proof. reflexivity. Qed.

Example setmember1d_empty_doc : setmember1d [] [1; 2]%Z = Some [].
Proof. reflexivity. Qed.

Example setdiff1d_doc :
  setdiff1d [1; 2; 3; 4]%Z [2; 4]%Z = Some (IntArray [1; 3]%Z).
Proof. reflexivity. Qed.

Example setdiff1d_empty_doc : setdiff1d [] [1]%Z = Some (BoolArray []).
Proof. reflexivity. Qed.

Example union1d_doc : union1d [3; 1]%Z [2; 3]%Z = [1; 2; 3]%Z.
Proof. reflexivity. Qed.

(** The exchange step on a run of three equal entries of the second array
    leaves a sequence that is no longer a permutation, and the mask is
    right all the same. *)
Example setmember1d_triple :
  setmember1d_ii [7]%Z [7; 7; 7]%Z = Some [1; 2] /\
  setmember1d [7; 5]%Z [7; 7; 7]%Z = Some [true; false].
Proof. split; reflexivity. Qed.

(* ================================================================== *)
(** ** [ediff1d] *)
(* ================================================================== *)

Lemma wrap64_small (z : Z) : int64_range z -> wrap64 z = z.
Proof.
  unfold int64_range, wrap64. intros H.
  rewrite Z.mod_small; lia.
Qed.

Lemma wrap64_quot (z : Z) : exists q, wrap64 z = (z - q * 2 ^ 64)%Z.
Proof.
  exists ((z + 2 ^ 63) / 2 ^ 64)%Z. unfold wrap64.
  rewrite Z.mod_eq by lia. lia.
Qed.

Lemma wrap64_range (z : Z) : int64_range (wrap64 z).
Proof.
  unfold int64_range, wrap64.
  pose proof (Z.mod_pos_bound (z + 2 ^ 63) (2 ^ 64) ltac:(lia)). lia.
Qed.

Lemma wrap64_add_mul (z q : Z) : wrap64 (z + q * 2 ^ 64) = wrap64 z.
Proof.
  unfold wrap64.
  replace (z + q * 2 ^ 64 + 2 ^ 63)%Z with (z + 2 ^ 63 + q * 2 ^ 64)%Z by lia.
  now rewrite Z_mod_plus_full.
Qed.

(** A wrapped difference of two 64-bit integers is zero exactly when they
    are equal. *)
Lemma wrap64_sub_zero (x y : Z) :
  int64_range x -> int64_range y ->
  (wrap64 (y - x) =? 0)%Z = (y =? x)%Z.
Proof.
  unfold int64_range. intros Hx Hy.
  destruct (wrap64_quot (y - x)) as (q & E).
  destruct (Z.eqb_spec y x) as [->|Hne].
  - rewrite Z.sub_diag. reflexivity.
  - apply Z.eqb_neq. intros C. rewrite C in E.
    assert (q = 0%Z) by lia. lia.
Qed.

Lemma ediff1d_pads (ary : list Z) (to_end to_begin : option Z) :
  ediff1d ary to_end to_begin =
  pad to_begin ++ ediff1d ary None None ++ pad to_end.
Proof.
  unfold ediff1d, hstack.
  destruct to_begin, to_end; simpl; now rewrite ?app_nil_r.
Qed.

Lemma ediff1d_cons2 (x y : Z) (r : list Z) :
  ediff1d (x :: y :: r) None None =
  wrap64 (y - x) :: ediff1d (y :: r) None None.
Proof. reflexivity. Qed.

Lemma ediff1d_plain_length (ary : list Z) :
  length (ediff1d ary None None) = length ary - 1.
Proof.
  induction ary as [|x [|y r] IH]; [reflexivity|reflexivity|].
  rewrite ediff1d_cons2. cbn [length] in *. lia.
Qed.

(** The subtraction wraps: the difference of the least 64-bit integer and 1
    is negative. *)
Example ediff1d_overflow :
  ediff1d [- 2 ^ 63; 1]%Z None None = [- 2 ^ 63 + 1]%Z.
Proof. reflexivity. Qed.

Example ediff1d_doc :
  ediff1d [1; 2; 4; 7; 0]%Z None None = [1; 2; 3; -7]%Z.
Proof. reflexivity. Qed.

(** X1: [ediff1d] returns one entry fewer than the array has (none for an
    array of at most one entry), plus one for each of [to_begin] and
    [to_end] given; [to_begin] is then the first entry and [to_end] the
    last. *)
Theorem ediff1d_length (ary : list Z) (to_end to_begin : option Z) :
  length (ediff1d ary to_end to_begin) =
    length (pad to_begin) + (length ary - 1) + length (pad to_end) /\
  (forall v, to_begin = Some v ->
     hd_error (ediff1d ary to_end to_begin) = Some v) /\
  (forall v, to_end = Some v -> last (ediff1d ary to_end to_begin) 0%Z = v).
Proof.
  rewrite ediff1d_pads. split; [|split].
  - rewrite !length_app, ediff1d_plain_length. lia.
  - intros v ->. reflexivity.
  - intros v ->. rewrite app_assoc. apply last_last.
Qed.

(** X2: in 64-bit wrap-around arithmetic the differences undo a cumulative
    sum: for an array of 64-bit integers, the first entry plus the first [k]
    differences, wrapped, is the entry at [k]; this holds also where a
    difference overflows. *)
Theorem ediff1d_telescope (ary : list Z) (k : nat) :
  Forall int64_range ary ->
  k < length ary ->
  wrap64 (nth 0 ary 0%Z + sum_arr (firstn k (ediff1d ary None None))) =
  nth k ary 0%Z.
Proof.
  intros Hr; revert k; induction ary as [|x [|y r] IH]; intros k Hk.
  - simpl in Hk; lia.
  - simpl in Hk. assert (k = 0) as -> by lia.
    inversion Hr; subst. cbn [nth firstn sum_arr fold_right].
    rewrite Z.add_0_r. now apply wrap64_small.
  - inversion Hr as [|? ? Hx Hyr]; subst.
    destruct k as [|k].
    + cbn [nth firstn sum_arr fold_right]. rewrite Z.add_0_r.
      now apply wrap64_small.
    + rewrite ediff1d_cons2. cbn [firstn].
      change (nth (S k) (x :: y :: r) 0%Z) with (nth k (y :: r) 0%Z).
      rewrite <- (IH Hyr k ltac:(cbn [length] in *; lia)).
      unfold sum_arr. cbn [fold_right nth].
      destruct (wrap64_quot (y - x)) as (q & ->).
      rewrite <- (wrap64_add_mul _ q). f_equal. lia.
Qed.

Lemma ediff1d_telescope_witness :
  Forall int64_range [- 2 ^ 63; 1; 4]%Z /\
  2 < length [- 2 ^ 63; 1; 4]%Z /\
  wrap64 (nth 0 [- 2 ^ 63; 1; 4]%Z 0%Z +
          sum_arr (firstn 2 (ediff1d [- 2 ^ 63; 1; 4]%Z None None))) =
  nth 2 [- 2 ^ 63; 1; 4]%Z 0%Z.
Proof.
  assert (Hr : Forall int64_range [- 2 ^ 63; 1; 4]%Z)
    by (repeat constructor; unfold int64_range; lia).
  assert (H : 2 < length [- 2 ^ 63; 1; 4]%Z) by (simpl; lia).
  split; [exact Hr|]. split; [exact H|].
  exact (ediff1d_telescope Hr H).
Defined.




(** X4: on an array of 64-bit integers the flag of [setmember1d] is the
    formulation its comment gives, [ediff1d(aux, 1) == 0]: a wrapped
    difference is zero exactly when the two entries are equal. *)
Theorem sm_flag_ediff1d (aux : list Z) :
  Forall int64_range aux ->
  sm_flag aux = map (fun d => (d =? 0)%Z) (ediff1d aux (Some 1%Z) None).
Proof.
  intros Hr.
  rewrite ediff1d_pads. cbn [pad app]. rewrite map_app. cbn [map].
  change ((1 =? 0)%Z) with false.
  induction aux as [|x [|y r] IH]; [reflexivity|reflexivity|].
  inversion Hr as [|? ? Hx Hyr]; subst.
  inversion Hyr as [|? ? Hy _]; subst.
  rewrite sm_flag_cons2, ediff1d_cons2, (IH Hyr). cbn [map app]. f_equal.
  symmetry. now apply wrap64_sub_zero.
Qed.

Lemma sm_flag_ediff1d_witness :
  Forall int64_range [- 2 ^ 63; 1; 1; 4]%Z /\
  sm_flag [- 2 ^ 63; 1; 1; 4]%Z =
  map (fun d => (d =? 0)%Z) (ediff1d [- 2 ^ 63; 1; 1; 4]%Z (Some 1%Z) None).
Proof.
  assert (Hr : Forall int64_range [- 2 ^ 63; 1; 1; 4]%Z)
    by (repeat constructor; unfold int64_range; lia).
  split; [exact Hr|]. exact (sm_flag_ediff1d Hr).
Defined.

(* ================================================================== *)
(** ** [unique1d] and [union1d] as sets *)
(* ================================================================== *)

Lemma strict_sorted_ext (l1 l2 : list Z) :
  StronglySorted Z.lt l1 -> StronglySorted Z.lt l2 ->
  (forall z, In z l1 <-> In z l2) -> l1 = l2.
Proof.
  intros H1 H2 H.
  apply (sorted_perm_unique Z.le_antisymm);
    [now apply lt_sorted_le|now apply lt_sorted_le|].
  apply NoDup_Permutation; [now apply lt_sorted_NoDup| |exact H].
  now apply lt_sorted_NoDup.
Qed.

Lemma unique1d_ext (a b : list Z) :
  (forall z, In z a <-> In z b) -> unique1d a = unique1d b.
Proof.
  intros H. apply strict_sorted_ext; try apply unique1d_sorted.
  intros z. now rewrite !unique1d_In.
Qed.

Lemma compress_NoDup (A : Type) (mask : list bool) (l : list A) :
  NoDup l -> NoDup (compress mask l).
Proof.
  intros H; revert mask; induction H as [|x l Hx Hl IH]; intros [|m mask];
    simpl; try constructor.
  destruct m; [|apply IH].
  constructor; [|apply IH]. intros Hin. apply Hx. eapply compress_In, Hin.
Qed.

(** X5: [unique1d] returns exactly the values of its input, each once. *)
Theorem unique1d_values (ar : list Z) :
  (forall z, In z (unique1d ar) <-> In z ar) /\
  (forall z, In z ar -> count_occ Z.eq_dec (unique1d ar) z = 1) /\
  length (unique1d ar) <= length ar.
Proof.
  split; [apply unique1d_In|]. split.
  - intros z Hz.
    pose proof (proj1 (NoDup_count_occ Z.eq_dec _)
                  (lt_sorted_NoDup (unique1d_sorted ar)) z) as Hle.
    apply unique1d_In, (count_occ_In Z.eq_dec) in Hz. lia.
  - apply NoDup_incl_length; [apply lt_sorted_NoDup, unique1d_sorted|].
    intros z. apply unique1d_In.
Qed.

(** X6: [unique1d] depends only on which values occur in its input: two
    arrays with the same values, in any order and with any repetition, give
    the same result. *)
Theorem unique1d_same_values (a b : list Z) :
  (forall z, In z a <-> In z b) -> unique1d a = unique1d b.
Proof.
  intros H. apply strict_sorted_ext; try apply unique1d_sorted.
  intros z. rewrite !unique1d_In. apply H.
Qed.

Lemma unique1d_same_values_witness :
  (forall z, In z [2; 1; 2]%Z <-> In z [1; 2; 1; 1]%Z) /\
  unique1d [2; 1; 2]%Z = unique1d [1; 2; 1; 1]%Z.
Proof.
  assert (H : forall z, In z [2; 1; 2]%Z <-> In z [1; 2; 1; 1]%Z)
    by (intros z; simpl; tauto).
  split; [exact H|]. exact (@unique1d_same_values _ _ H).
Defined.

Section Unique1dIndexValues.
Variable argsort : list Z -> list nat.
Hypothesis argsort_ok : forall l, is_argsort l (argsort l).

(** X7: whatever order [argsort] gives to equal values, the values returned
    with [return_index=True] are those returned without it, and the indices
    are pairwise distinct positions of the input. *)
Theorem unique1d_index_values (s : list Z) :
  exists idx, unique1d_index argsort s = Some (idx, unique1d s) /\
    NoDup (ndarray_indices idx) /\
    Forall (fun i => i < length s) (ndarray_indices idx).
Proof.
  destruct s as [|x r].
  - exists (BoolArray []). repeat split; constructor.
  - set (s := x :: r). destruct (argsort_ok s) as [HP HS].
    rewrite (@unique1d_index_nonempty argsort argsort_ok s) by discriminate.
    assert (E : map (fun i => nth i s 0%Z) (argsort s) = sort s).
    { symmetry. apply sort_unique; [|exact HS].
      rewrite HP. now rewrite map_nth_seq. }
    rewrite E, <- unique1d_select.
    eexists. split; [reflexivity|]. cbn [ndarray_indices]. split.
    + apply compress_NoDup.
      eapply Permutation_NoDup; [symmetry; exact HP|apply seq_NoDup].
    + apply Forall_forall. intros i Hi. apply compress_In in Hi.
      apply (Permutation_in _ HP), in_seq in Hi. lia.
Qed.

End Unique1dIndexValues.

Lemma unique1d_index_values_witness :
  (forall l, is_argsort l (argsort_stable l)) /\
  exists idx,
    unique1d_index argsort_stable [3; 1; 1; 2]%Z =
      Some (idx, unique1d [3; 1; 1; 2]%Z) /\
    NoDup (ndarray_indices idx) /\
    Forall (fun i => i < length [3; 1; 1; 2]%Z) (ndarray_indices idx).
Proof.
  split; [exact argsort_stable_is_argsort|].
  exact (@unique1d_index_values argsort_stable argsort_stable_is_argsort
           [3; 1; 1; 2]%Z).
Defined.

Lemma union1d_In (a b : list Z) (x : Z) :
  In x (union1d a b) <-> In x a \/ In x b.
Proof.
  unfold union1d, concatenate. rewrite unique1d_In. apply in_app_iff.
Qed.

(** X8: [union1d] returns, strictly ascending, exactly the values that occur
    in one of its inputs; no uniqueness of the inputs is needed. *)
Theorem union1d_values (a b : list Z) :
  StronglySorted Z.lt (union1d a b) /\
  (forall x, In x (union1d a b) <-> In x a \/ In x b).
Proof.
  split; [apply unique1d_sorted|]. intros x. apply union1d_In.
Qed.

(** X9: [union1d] is commutative and associative, the union of an array
    with itself or with the empty array is [unique1d] of it, and
    deduplicating the inputs first changes nothing. *)
Theorem union1d_algebra (a b c : list Z) :
  union1d a b = union1d b a /\
  union1d (union1d a b) c = union1d a (union1d b c) /\
  union1d a a = unique1d a /\
  union1d a [] = unique1d a /\
  union1d (unique1d a) (unique1d b) = union1d a b.
Proof.
  repeat split; apply unique1d_ext; intros z; unfold concatenate;
    rewrite ?in_app_iff, ?union1d_In, ?unique1d_In; simpl; tauto.
Qed.

(* ================================================================== *)
(** ** The intersections and [setxor1d] as sets *)
(* ================================================================== *)

Lemma sort_Permutation (l l' : list Z) : Permutation l l' -> sort l = sort l'.
Proof.
  intros H. apply sort_unique; [|apply sort_sorted].
  rewrite sort_perm. now symmetry.
Qed.

Lemma keep_repeats_strict (l : list Z) :
  StronglySorted Z.le l ->
  (forall v, count_occ Z.eq_dec l v <= 2) ->
  StronglySorted Z.lt (keep_repeats l).
Proof.
  intros HS H2. apply le_sorted_NoDup_lt.
  - rewrite <- compress_adjacent_eq. now apply compress_sorted.
  - apply (NoDup_count_occ Z.eq_dec). intros v.
    rewrite keep_repeats_count by exact HS. specialize (H2 v). lia.
Qed.

Lemma unique1d_count (ar : list Z) (v : Z) :
  count_occ Z.eq_dec (unique1d ar) v <= 1.
Proof.
  apply (NoDup_count_occ Z.eq_dec), lt_sorted_NoDup, unique1d_sorted.
Qed.

(** X10: [intersect1d_nu] returns, strictly ascending, exactly the values
    that occur in both inputs; no uniqueness of the inputs is needed. *)
Theorem intersect1d_nu_values (a b : list Z) :
  StronglySorted Z.lt (intersect1d_nu a b) /\
  (forall x, In x (intersect1d_nu a b) <-> In x a /\ In x b).
Proof.
  split; [|intros x; apply intersect1d_nu_In].
  rewrite intersect1d_nu_select.
  apply keep_repeats_strict; [apply sort_sorted|]. intros v.
  rewrite (proj1 (Permutation_count_occ Z.eq_dec _ _) (sort_perm _) v).
  unfold concatenate. rewrite count_occ_app.
  pose proof (unique1d_count a v). pose proof (unique1d_count b v). lia.
Qed.

(** X11: both intersections are commutative, and [intersect1d_nu] does not
    change when its inputs are deduplicated first. *)
Theorem intersect1d_comm (a b : list Z) :
  intersect1d a b = intersect1d b a /\
  intersect1d_nu a b = intersect1d_nu b a /\
  intersect1d_nu (unique1d a) (unique1d b) = intersect1d_nu a b.
Proof.
  split; [|split].
  - rewrite !intersect1d_select. f_equal.
    apply sort_Permutation, Permutation_app_comm.
  - rewrite !intersect1d_nu_select. f_equal.
    apply sort_Permutation, Permutation_app_comm.
  - unfold intersect1d_nu.
    now rewrite !(unique1d_strict (unique1d_sorted _)).
Qed.

(** X12: on inputs with unique elements, as the module asks of
    [intersect1d], the two intersections agree. *)
Theorem intersect1d_unique_inputs (a b : list Z) :
  NoDup a -> NoDup b -> intersect1d a b = intersect1d_nu a b.
Proof.
  intros Ha Hb. rewrite intersect1d_select, intersect1d_nu_select.
  rewrite (unique1d_NoDup Ha), (unique1d_NoDup Hb). f_equal.
  apply sort_Permutation. unfold concatenate.
  now rewrite (sort_perm a), (sort_perm b).
Qed.

Lemma intersect1d_unique_inputs_witness :
  NoDup [1; 3; 5]%Z /\ NoDup [3; 4]%Z /\
  intersect1d [1; 3; 5]%Z [3; 4]%Z = intersect1d_nu [1; 3; 5]%Z [3; 4]%Z.
Proof.
  assert (Ha : NoDup [1; 3; 5]%Z).
  { repeat (constructor; [simpl; intuition discriminate|]). constructor. }
  assert (Hb : NoDup [3; 4]%Z).
  { repeat (constructor; [simpl; intuition discriminate|]). constructor. }
  split; [exact Ha|]. split; [exact Hb|].
  exact (intersect1d_unique_inputs Ha Hb).
Defined.

Lemma dedup_repeats_length (l : list Z) :
  length (compress (concatenate [true] (adjacent_ne l)) l) +
  length (keep_repeats l) = length l.
Proof.
  induction l as [|x [|y t] IH]; [reflexivity|reflexivity|].
  rewrite dedup_select in *. rewrite keep_repeats_cons2.
  cbn [keep_changes].
  destruct (Z.eqb_spec y x) as [->|Hne]; cbn [negb length] in *; lia.
Qed.

(** X13: for all inputs, the lengths of [union1d(a, b)] and
    [intersect1d(a, b)] add up to [len(a) + len(b)]: every entry of the
    sorted concatenation either starts a run, and is kept by the union, or
    repeats its predecessor, and is counted by the intersection. *)
Theorem union1d_intersect1d_length (a b : list Z) :
  length (union1d a b) + length (intersect1d a b) = length a + length b.
Proof.
  unfold union1d. rewrite unique1d_select, intersect1d_select.
  rewrite dedup_repeats_length, sort_length. apply length_app.
Qed.

(** The exclusive-or selection on a sorted array in which no value occurs
    more than twice keeps the values that occur once. *)
Lemma xor_keep_count (l : list Z) (v : Z) :
  StronglySorted Z.le l ->
  (forall w, count_occ Z.eq_dec l w <= 2) ->
  forall f,
    l <> [] ->
    (f = false -> count_occ Z.eq_dec l (hd 0%Z l) <= 1) ->
    count_occ Z.eq_dec (xor_keep f l) v =
    if count_occ Z.eq_dec l v +
       (if negb f && (v =? hd 0 l)%Z then 1 else 0) =? 1
    then 1 else 0.
Proof.
  induction l as [|x t IH]; intros HS H2 f Hne H1; [congruence|].
  destruct t as [|y t].
  - cbn [xor_keep hd]. destruct f; cbn [Bool.eqb negb andb].
    + simpl. destruct (Z.eq_dec x v); reflexivity.
    + cbn [count_occ]. destruct (Z.eq_dec x v) as [->|Hxv].
      * now rewrite Z.eqb_refl.
      * destruct (Z.eqb_spec v x); [congruence|reflexivity].
  - pose proof (proj1 (StronglySorted_inv HS)) as Ht.
    assert (H2' : forall w, count_occ Z.eq_dec (y :: t) w <= 2).
    { intros w. specialize (H2 w).
      change (x :: y :: t) with ([x] ++ (y :: t)) in H2.
      rewrite count_occ_app in H2. lia. }
    change (xor_keep f (x :: y :: t))
      with (if Bool.eqb (negb (y =? x)%Z) f
            then x :: xor_keep (negb (y =? x)%Z) (y :: t)
            else xor_keep (negb (y =? x)%Z) (y :: t)).
    cbn [hd] in *.
    destruct (Z.eqb_spec y x) as [->|Hyx]; cbn [negb].
    + pose proof (H2 x) as Hx.
      rewrite (@count_occ_cons_eq Z Z.eq_dec (x :: t) x x eq_refl) in Hx.
      destruct f; cbn [Bool.eqb negb andb].
      * rewrite (IH Ht H2' false ltac:(discriminate) ltac:(intros _; lia)).
        cbn [negb andb hd].
        destruct (Z.eq_dec x v) as [->|Hxv].
        -- rewrite Z.eqb_refl.
           rewrite (@count_occ_cons_eq Z Z.eq_dec (v :: t) v v eq_refl).
           now rewrite !Nat.add_0_r, Nat.add_1_r.
        -- destruct (Z.eqb_spec v x); [congruence|].
           now rewrite (count_occ_cons_neq _ (x :: t) Hxv).
      * specialize (H1 eq_refl).
        rewrite (@count_occ_cons_eq Z Z.eq_dec (x :: t) x x eq_refl) in H1.
        rewrite (@count_occ_cons_eq Z Z.eq_dec t x x eq_refl) in H1. lia.
    + pose proof (@le_sorted_head_absent x y t HS ltac:(congruence)) as Habs.
      pose proof (IH Ht H2' true ltac:(discriminate) ltac:(discriminate))
        as IHt.
      cbn [negb andb] in IHt. rewrite Nat.add_0_r in IHt.
      destruct (Z.eq_dec x v) as [->|Hxv].
      * rewrite Z.eqb_refl, andb_true_r.
        rewrite (@count_occ_cons_eq Z Z.eq_dec (y :: t) v v eq_refl), Habs.
        destruct f; cbn [negb Bool.eqb].
        -- rewrite (@count_occ_cons_eq Z Z.eq_dec _ v v eq_refl), IHt, Habs.
           reflexivity.
        -- rewrite IHt, Habs. reflexivity.
      * destruct (Z.eqb_spec v x); [congruence|].
        rewrite andb_false_r, Nat.add_0_r.
        rewrite (count_occ_cons_neq _ (y :: t) Hxv).
        destruct f; cbn [Bool.eqb].
        -- rewrite (count_occ_cons_neq _ _ Hxv). exact IHt.
        -- exact IHt.
Qed.

Lemma setxor1d_count (a b : list Z) (v : Z) :
  NoDup a -> NoDup b ->
  count_occ Z.eq_dec (setxor1d a b) v =
  if count_occ Z.eq_dec a v + count_occ Z.eq_dec b v =? 1 then 1 else 0.
Proof.
  intros Ha Hb. rewrite setxor1d_select, <- count_occ_app.
  change (a ++ b) with (concatenate a b).
  assert (H2 : forall w, count_occ Z.eq_dec (sort (concatenate a b)) w <= 2).
  { intros w.
    rewrite (proj1 (Permutation_count_occ Z.eq_dec _ _) (sort_perm _) w).
    unfold concatenate. rewrite count_occ_app.
    pose proof (proj1 (NoDup_count_occ Z.eq_dec _) Ha w).
    pose proof (proj1 (NoDup_count_occ Z.eq_dec _) Hb w). lia. }
  rewrite <- (proj1 (Permutation_count_occ Z.eq_dec _ _)
                   (sort_perm (concatenate a b)) v).
  destruct (sort (concatenate a b)) as [|x r] eqn:E; [reflexivity|].
  rewrite (@xor_keep_count (x :: r) v) ; try discriminate; auto.
  - cbn [negb andb]. now rewrite Nat.add_0_r.
  - rewrite <- E. apply sort_sorted.
Qed.

Lemma setxor1d_In (a b : list Z) (x : Z) :
  NoDup a -> NoDup b ->
  (In x (setxor1d a b) <-> (In x a /\ ~ In x b) \/ (In x b /\ ~ In x a)).
Proof.
  intros Ha Hb.
  rewrite (count_occ_In Z.eq_dec), (setxor1d_count x Ha Hb).
  pose proof (proj1 (NoDup_count_occ Z.eq_dec _) Ha x) as Ca.
  pose proof (proj1 (NoDup_count_occ Z.eq_dec _) Hb x) as Cb.
  rewrite (count_occ_not_In Z.eq_dec a x), (count_occ_not_In Z.eq_dec b x).
  rewrite !(count_occ_In Z.eq_dec).
  destruct (Nat.eqb_spec (count_occ Z.eq_dec a x + count_occ Z.eq_dec b x) 1);
    lia.
Qed.

Lemma setxor1d_sorted (a b : list Z) : StronglySorted Z.le (setxor1d a b).
Proof.
  unfold setxor1d, size. cbv zeta.
  destruct (length (concatenate a b) =? 0) eqn:E.
  - apply Nat.eqb_eq, length_zero_iff_nil in E. rewrite E. constructor.
  - apply compress_sorted, sort_sorted.
Qed.

(** X14: on inputs with unique elements [setxor1d] returns, strictly
    ascending, exactly the values that occur in one input and not in the
    other. *)
Theorem setxor1d_values (a b : list Z) :
  NoDup a -> NoDup b ->
  StronglySorted Z.lt (setxor1d a b) /\
  (forall x, In x (setxor1d a b) <->
             (In x a /\ ~ In x b) \/ (In x b /\ ~ In x a)).
Proof.
  intros Ha Hb. split; [|intros x; now apply setxor1d_In].
  apply le_sorted_NoDup_lt; [apply setxor1d_sorted|].
  apply (NoDup_count_occ Z.eq_dec). intros v.
  rewrite (setxor1d_count v Ha Hb).
  destruct (_ =? 1); lia.
Qed.

Lemma setxor1d_values_witness :
  NoDup [1; 3; 5]%Z /\ NoDup [3; 4]%Z /\
  StronglySorted Z.lt (setxor1d [1; 3; 5]%Z [3; 4]%Z) /\
  (forall x, In x (setxor1d [1; 3; 5]%Z [3; 4]%Z) <->
             (In x [1; 3; 5]%Z /\ ~ In x [3; 4]%Z) \/
             (In x [3; 4]%Z /\ ~ In x [1; 3; 5]%Z)).
Proof.
  assert (Ha : NoDup [1; 3; 5]%Z).
  { repeat (constructor; [simpl; intuition discriminate|]). constructor. }
  assert (Hb : NoDup [3; 4]%Z).
  { repeat (constructor; [simpl; intuition discriminate|]). constructor. }
  split; [exact Ha|]. split; [exact Hb|].
  exact (setxor1d_values Ha Hb).
Defined.

(** X15: [setxor1d] is commutative for all inputs, and the exclusive-or of
    an array with unique elements and the empty array is the sorted
    array. *)
Theorem setxor1d_comm (a b : list Z) :
  setxor1d a b = setxor1d b a /\
  (NoDup a -> setxor1d a [] = sort a).
Proof.
  split.
  - rewrite !setxor1d_select. f_equal.
    apply sort_Permutation, Permutation_app_comm.
  - intros Ha. apply strict_sorted_ext.
    + apply le_sorted_NoDup_lt; [apply setxor1d_sorted|].
      apply (NoDup_count_occ Z.eq_dec). intros v.
      rewrite (setxor1d_count v Ha (NoDup_nil Z)). destruct (_ =? 1); lia.
    + apply le_sorted_NoDup_lt; [apply sort_sorted|].
      eapply Permutation_NoDup; [symmetry; apply sort_perm|exact Ha].
    + intros z. rewrite (setxor1d_In z Ha (NoDup_nil Z)), sort_In.
      simpl. tauto.
Qed.

(** X16: on inputs with unique elements the union splits into the
    exclusive-or and the intersection: the two have no value in common,
    together they hold the values of [union1d(a, b)], and their lengths add
    up to its length. *)
Theorem union1d_split (a b : list Z) :
  NoDup a -> NoDup b ->
  (forall x, ~ (In x (setxor1d a b) /\ In x (intersect1d_nu a b))) /\
  (forall x, In x (union1d a b) <->
             In x (setxor1d a b) \/ In x (intersect1d_nu a b)) /\
  length (union1d a b) =
  length (setxor1d a b) + length (intersect1d_nu a b).
Proof.
  intros Ha Hb.
  assert (Hdis : forall x,
             ~ (In x (setxor1d a b) /\ In x (intersect1d_nu a b))).
  { intros x. rewrite (setxor1d_In x Ha Hb), intersect1d_nu_In. tauto. }
  assert (Hun : forall x, In x (union1d a b) <->
                  In x (setxor1d a b) \/ In x (intersect1d_nu a b)).
  { intros x. rewrite union1d_In, (setxor1d_In x Ha Hb), intersect1d_nu_In.
    destruct (in_dec Z.eq_dec x a), (in_dec Z.eq_dec x b); tauto. }
  split; [exact Hdis|]. split; [exact Hun|].
  rewrite <- length_app. apply Permutation_length, NoDup_Permutation.
  - apply lt_sorted_NoDup, unique1d_sorted.
  - apply NoDup_app.
    + apply (NoDup_count_occ Z.eq_dec). intros v.
      rewrite (setxor1d_count v Ha Hb). destruct (_ =? 1); lia.
    + apply (NoDup_count_occ Z.eq_dec). intros v.
      rewrite intersect1d_nu_select, keep_repeats_count by apply sort_sorted.
      rewrite (proj1 (Permutation_count_occ Z.eq_dec _ _) (sort_perm _) v).
      unfold concatenate. rewrite count_occ_app.
      pose proof (unique1d_count a v). pose proof (unique1d_count b v). lia.
    + intros x H1 H2. apply (Hdis x). now split.
  - intros x. rewrite in_app_iff. apply Hun.
Qed.

Lemma union1d_split_witness :
  NoDup [1; 3; 5]%Z /\ NoDup [3; 4]%Z /\
  (forall x, ~ (In x (setxor1d [1; 3; 5]%Z [3; 4]%Z) /\
                In x (intersect1d_nu [1; 3; 5]%Z [3; 4]%Z))) /\
  (forall x, In x (union1d [1; 3; 5]%Z [3; 4]%Z) <->
             In x (setxor1d [1; 3; 5]%Z [3; 4]%Z) \/
             In x (intersect1d_nu [1; 3; 5]%Z [3; 4]%Z)) /\
  length (union1d [1; 3; 5]%Z [3; 4]%Z) =
  length (setxor1d [1; 3; 5]%Z [3; 4]%Z) +
  length (intersect1d_nu [1; 3; 5]%Z [3; 4]%Z).
Proof.
  assert (Ha : NoDup [1; 3; 5]%Z).
  { repeat (constructor; [simpl; intuition discriminate|]). constructor. }
  assert (Hb : NoDup [3; 4]%Z).
  { repeat (constructor; [simpl; intuition discriminate|]). constructor. }
  split; [exact Ha|]. split; [exact Hb|].
  exact (union1d_split Ha Hb).
Defined.

(* ================================================================== *)
(** ** [setmember1d] and [setdiff1d], further *)
(* ================================================================== *)

Lemma in_arr_In (b : list Z) (x : Z) : in_arr b x = true <-> In x b.
Proof.
  unfold in_arr. rewrite existsb_exists. split.
  - intros (y & Hy & E). apply Z.eqb_eq in E. now subst.
  - intros H. exists x. split; [exact H|apply Z.eqb_refl].
Qed.

Lemma compress_map_filter (A : Type) (p : A -> bool) (l : list A) :
  compress (map p l) l = filter p l.
Proof.
  induction l as [|x l IH]; simpl; [reflexivity|].
  rewrite IH. reflexivity.
Qed.

(** On a duplicate-free first array the mask is the membership test of each
    entry, in order. *)
Lemma setmember1d_nodup_map (a b : list Z) :
  NoDup a -> setmember1d a b = Some (map (in_arr b) a).
Proof.
  intros Ha.
  destruct (setmember1d_nodup_mask b Ha) as (mask & -> & Hlen & H).
  f_equal. apply bool_list_ext; [now rewrite length_map|].
  intros i Hi. rewrite Hlen in Hi.
  rewrite (H i Hi), (nth_map_lt _ _ 0%Z) by exact Hi.
  symmetry. apply in_arr_In.
Qed.

(** X17: the mask of [setmember1d] selects what its docstring says: for a
    first array with unique elements, the values [ar1[mask]] are exactly the
    common values, in the order of [ar1], and sorting them gives
    [intersect1d_nu]. *)
Theorem setmember1d_selects (a b : list Z) :
  NoDup a ->
  exists mask, setmember1d a b = Some mask /\
    compress mask a = filter (in_arr b) a /\
    sort (compress mask a) = intersect1d_nu a b.
Proof.
  intros Ha. exists (map (in_arr b) a).
  split; [now apply setmember1d_nodup_map|].
  rewrite compress_map_filter. split; [reflexivity|].
  apply strict_sorted_ext.
  - apply le_sorted_NoDup_lt; [apply sort_sorted|].
    eapply Permutation_NoDup; [symmetry; apply sort_perm|].
    now apply NoDup_filter.
  - rewrite intersect1d_nu_select.
    apply keep_repeats_strict; [apply sort_sorted|]. intros v.
    rewrite (proj1 (Permutation_count_occ Z.eq_dec _ _) (sort_perm _) v).
    unfold concatenate. rewrite count_occ_app.
    pose proof (unique1d_count a v). pose proof (unique1d_count b v). lia.
  - intros z. rewrite sort_In, filter_In, in_arr_In, intersect1d_nu_In.
    reflexivity.
Qed.

Lemma setmember1d_selects_witness :
  NoDup [4; 1; 3; 2]%Z /\
  exists mask, setmember1d [4; 1; 3; 2]%Z [2; 4; 9]%Z = Some mask /\
    compress mask [4; 1; 3; 2]%Z = filter (in_arr [2; 4; 9]%Z) [4; 1; 3; 2]%Z /\
    sort (compress mask [4; 1; 3; 2]%Z) =
    intersect1d_nu [4; 1; 3; 2]%Z [2; 4; 9]%Z.
Proof.
  assert (Ha : NoDup [4; 1; 3; 2]%Z).
  { repeat (constructor; [simpl; intuition discriminate|]). constructor. }
  split; [exact Ha|]. exact (setmember1d_selects [2; 4; 9]%Z Ha).
Defined.

(** X18: for all inputs, [setmember1d] returns a mask whose entry [i] is
    true exactly when the value at [i] is in the second array or occurs
    again later in the first; so of the equal entries of the first array
    only the last one is tested against the second array alone. *)
Theorem setmember1d_exact (a b : list Z) :
  exists mask, setmember1d a b = Some mask /\ length mask = length a /\
    forall i, i < length a ->
      (nth i mask false = true <->
       In (nth i a 0%Z) b \/
       exists j, i < j /\ j < length a /\ nth j a 0%Z = nth i a 0%Z).
Proof.
  destruct (setmember1d_mask a b) as (mask & E & Hlen & H).
  exists mask. split; [exact E|]. split; [exact Hlen|]. exact H.
Qed.

(** X19: the exchange step of [setmember1d] does not change its result: the
    mask is the flags at the first [len(ar1)] entries of the [argsort] of
    the sort permutation itself. *)
Theorem setmember1d_exchange_irrelevant (a b : list Z) :
  setmember1d a b =
  take (sm_flag (map (fun i => nth i (concatenate a b) 0%Z) (sm_perm a b)))
       (firstn (length a) (argsort_stable (map Z.of_nat (sm_perm a b)))).
Proof.
  destruct (sm_exchange a b) as (p' & HK & ->). f_equal.
  assert (HPp : Permutation (sm_perm a b) (seq 0 (length (sm_perm a b))))
    by (rewrite sm_perm_length; apply argsort_stable_perm).
  assert (Hn : length a <= length (sm_perm a b))
    by (rewrite sm_perm_length, sm_ar_length; lia).
  pose proof (argsort_low_positions HPp Hn HK) as H1.
  pose proof (argsort_low_positions HPp Hn (keeps_low_refl _ _)) as H2.
  assert (L1 : length (argsort_stable (map Z.of_nat p')) =
               length (sm_perm a b)).
  { rewrite argsort_stable_length, length_map. apply (keeps_low_nth HK). }
  assert (L2 : length (argsort_stable (map Z.of_nat (sm_perm a b))) =
               length (sm_perm a b))
    by now rewrite argsort_stable_length, length_map.
  apply (nth_ext _ _ 0 0).
  - rewrite !length_firstn. lia.
  - intros i Hi. rewrite length_firstn in Hi.
    assert (Hi' : i < length a) by lia.
    rewrite !nth_firstn. apply Nat.ltb_lt in Hi'. rewrite Hi'.
    apply Nat.ltb_lt in Hi'.
    destruct (H1 i Hi') as [B1 E1]. destruct (H2 i Hi') as [B2 E2].
    rewrite sm_perm_length in B1, B2.
    apply (@sm_perm_inj a b _ _ B1 B2). congruence.
Qed.

(** X20: on a first array with unique elements [setdiff1d] returns the
    values of [ar1] that are not in [ar2], in the order they have in [ar1]
    (it does not sort). *)
Theorem setdiff1d_order (a b : list Z) :
  NoDup a ->
  exists d, setdiff1d a b = Some d /\
    ndarray_values d = filter (fun x => negb (in_arr b x)) a.
Proof.
  intros Ha. unfold setdiff1d.
  rewrite (setmember1d_nodup_map b Ha), bind_Some. unfold size.
  rewrite length_map. destruct a as [|x r].
  - exists (BoolArray []). split; reflexivity.
  - change (length (x :: r) =? 0) with false. cbv iota.
    eexists. split; [reflexivity|]. cbn [ndarray_values]. unfold eq_zero.
    rewrite map_map. apply compress_map_filter.
Qed.

Lemma setdiff1d_order_witness :
  NoDup [4; 1; 3; 2]%Z /\
  exists d, setdiff1d [4; 1; 3; 2]%Z [2; 4; 9]%Z = Some d /\
    ndarray_values d =
    filter (fun x => negb (in_arr [2; 4; 9]%Z x)) [4; 1; 3; 2]%Z.
Proof.
  assert (Ha : NoDup [4; 1; 3; 2]%Z).
  { repeat (constructor; [simpl; intuition discriminate|]). constructor. }
  split; [exact Ha|]. exact (setdiff1d_order [2; 4; 9]%Z Ha).
Defined.

(** X21: for all inputs [setdiff1d] returns: the empty boolean mask itself
    when the first array is empty, an integer array otherwise; and it never
    returns a value of the second array, or one that is not in the
    first. *)
Theorem setdiff1d_total (a b : list Z) :
  exists d, setdiff1d a b = Some d /\
    (a = [] -> d = BoolArray []) /\
    (a <> [] -> exists l, d = IntArray l) /\
    (forall x, In x (ndarray_values d) -> In x a /\ ~ In x b).
Proof.
  destruct (setmember1d_mask a b) as (mask & E & Hlen & H).
  unfold setdiff1d. rewrite E, bind_Some. unfold size.
  destruct (Nat.eqb_spec (length mask) 0) as [H0|H0].
  - destruct mask; [|discriminate]. destruct a; [|discriminate].
    exists (BoolArray []). split; [reflexivity|].
    split; [reflexivity|]. split; [congruence|]. intros x [].
  - eexists. split; [reflexivity|].
    split; [intros ->; simpl in Hlen; lia|]. split; [eauto|].
    intros x. cbn [ndarray_values]. rewrite (compress_nth_In 0%Z).
    unfold eq_zero. intros (i & Hi & Hm & <-).
    rewrite (nth_map_lt _ _ false) in Hm by lia.
    apply negb_true_iff in Hm. split; [now apply nth_In|].
    intros Hin. rewrite (proj2 (H i Hi)) in Hm; [discriminate|now left].
Qed.
